(** * TreeMap.h: an unbalanced binary-search-tree map with a lazy in-order
      iterator.

    The development embeds [TreeMap<K,V>] and its nested [TreeIterator]
    and proves the behaviour of add / at / remove / size and of the
    iterator operations.

    Modelling conventions.
    - A [TreeMapNode*] is either [nullptr] or the address of a node together
      with the node it designates (payload and the two child pointers).  The
      address is what pointer comparison looks at; the tree owns its nodes
      exclusively, so carrying the pointee along loses nothing.
    - [unsigned int size_] is an integer in [0, UINT_MAX], increments and
      decrements wrap around modulo [UINT_MAX + 1] (32-bit unsigned int).
    - [throw std::out_of_range(msg)] is the [throw] alternative of [result];
      a member function that can throw after the object exists returns the
      outcome together with the object's state after the call.
    - [new TreeMapNode{...}] either throws [std::bad_alloc] or yields the
      address of the new node; its outcome is an explicit argument of [add]. *)

From Stdlib Require Import String.
From Stdlib Require Import ZArith List Bool Arith Lia Sorted Permutation.
From Stdlib Require Import Ascii DecimalString.
From Equations Require Import Equations.
Import ListNotations.

Set Implicit Arguments.

(** ** Exceptions and results *)

Inductive exn : Type :=
| out_of_range (what : string).

Definition KeyNotFound : exn :=
  out_of_range "No such key exists in this tree."%string.
Definition IteratorExhausted : exn :=
  out_of_range "This iterator is past its end."%string.

Inductive result (A : Type) : Type :=
| ret (a : A)
| throw (e : exn).
Arguments ret {A} a.
Arguments throw {A} e.

Definition bind {A B} (m : result A) (f : A -> result B) : result B :=
  match m with
  | ret a => f a
  | throw e => throw e
  end.

Notation "x <- m ;; k" := (bind m (fun x => k))
  (at level 61, m at next level, right associativity).
Notation "' p <- m ;; k" := (bind m (fun x => let p := x in k))
  (at level 61, p pattern, m at next level, right associativity).

(** ** unsigned int *)

Definition UINT_MAX : Z := 4294967295.
Definition uint (z : Z) : Z := (z mod (UINT_MAX + 1))%Z.

(** ** Addresses and the allocator *)

Definition addr : Type := positive.

(** Outcome of [new TreeMapNode{...}]. *)
Inductive alloc : Type :=
| bad_alloc
| fresh (a : addr).

Section TreeMap.

Variables K V : Type.
(** [operator<] and [operator>] of the key class. *)
Variable less greater : K -> K -> bool.

(** A nullable [TreeMapNode*]. *)
Inductive ptr : Type :=
| nullptr
| Node (a : addr) (payload : K * V) (right left : ptr).

(** A [TreeMapNode*] known not to be null: the address and the node's
    three fields. *)
Record TreeMapNode : Type := mkNode {
  self : addr;
  payload : K * V;
  right : ptr;
  left : ptr
}.

Definition ptr_to (n : TreeMapNode) : ptr :=
  Node (self n) (payload n) (right n) (left n).
Arguments ptr_to : simpl never.

Record TreeMap : Type := mkTreeMap {
  size_ : Z;
  root_ : ptr
}.

(** [TreeMap() : size_(0), root_(nullptr)] *)
Definition TreeMap_new : TreeMap := {| size_ := 0%Z; root_ := nullptr |}.

(** *** add *)

Fixpoint addHelper (current : ptr) (newElement : TreeMapNode) : ptr * bool :=
  match current with
  | nullptr => (ptr_to newElement, true)
  | Node a p r l =>
      if less (fst p) (fst (payload newElement)) then
        let (r', success) := addHelper r newElement in
        (Node a p r' l, success)
      else if greater (fst p) (fst (payload newElement)) then
        let (l', success) := addHelper l newElement in
        (Node a p r l', success)
      else
        (Node a p r l, false)
  end.

Definition add (new_ : alloc) (key : K) (value : V) (t : TreeMap)
  : bool * TreeMap :=
  match new_ with
  | bad_alloc => (false, t)
  | fresh a =>
      let newElement := mkNode a (key, value) nullptr nullptr in
      let (root', success) := addHelper (root_ t) newElement in
      (success,
       {| size_ := if success then uint (size_ t + 1) else size_ t;
          root_ := root' |})
  end.

(** *** remove *)

Fixpoint removeHelper (current : ptr) (key : K) : result (ptr * V) :=
  match current with
  | nullptr => throw KeyNotFound
  | Node a p r l =>
      if less (fst p) key then
        '(r', retVal) <- removeHelper r key ;;
        ret (Node a p r' l, retVal)
      else if greater (fst p) key then
        '(l', retVal) <- removeHelper l key ;;
        ret (Node a p r l', retVal)
      else
        let retVal := snd p in
        let remainingSubtree :=
          match r with
          | Node ra rp rr rl => fst (addHelper l (mkNode ra rp rr rl))
          | nullptr => l
          end in
        ret (remainingSubtree, retVal)
  end.

Definition remove (key : K) (t : TreeMap) : result V * TreeMap :=
  match removeHelper (root_ t) key with
  | throw e => (throw e, t)
  | ret (root', retVal) =>
      (ret retVal, {| size_ := uint (size_ t - 1); root_ := root' |})
  end.

(** *** at, size *)

Fixpoint atHelper (current : ptr) (key : K) : result V :=
  match current with
  | nullptr => throw KeyNotFound
  | Node a p r l =>
      if less (fst p) key then atHelper r key
      else if greater (fst p) key then atHelper l key
      else ret (snd p)
  end.

Definition at_ (key : K) (t : TreeMap) : result V := atHelper (root_ t) key.

Definition size (t : TreeMap) : Z := size_ t.

(** *** TreeIterator *)

(** [stack<TreeMapNode*>* toBeProcessed_], top of the stack first. *)
Definition TreeIterator : Type := list TreeMapNode.

(** [while (root != nullptr) { push(root); root = root->left; }] *)
Fixpoint push_left_chain (root : ptr) (toBeProcessed : TreeIterator)
  : TreeIterator :=
  match root with
  | nullptr => toBeProcessed
  | Node a p r l => push_left_chain l (mkNode a p r l :: toBeProcessed)
  end.

Definition TreeIterator_of (root : ptr) : TreeIterator :=
  push_left_chain root [].

Definition TreeIterator_end : TreeIterator := [].

Definition isLegal (it : TreeIterator) : bool :=
  negb (Nat.eqb (length it) 0).

(** [operator==] of [std::stack]: the underlying sequences have the same
    length and equal pointers position by position. *)
Fixpoint stack_eqb (s1 s2 : list TreeMapNode) : bool :=
  match s1, s2 with
  | [], [] => true
  | n1 :: s1', n2 :: s2' => Pos.eqb (self n1) (self n2) && stack_eqb s1' s2'
  | _, _ => false
  end.

Definition iter_eq (lhs rhs : TreeIterator) : bool := stack_eqb lhs rhs.
Definition iter_neq (lhs rhs : TreeIterator) : bool := negb (stack_eqb lhs rhs).

(** [operator++()]: outcome and the iterator afterwards. *)
Definition incr (it : TreeIterator) : result unit * TreeIterator :=
  if negb (isLegal it) then (throw IteratorExhausted, it)
  else
    match it with
    | [] => (throw IteratorExhausted, it)
    | current :: rest =>
        match right current with
        | nullptr => (ret tt, rest)
        | Node _ _ _ _ => (ret tt, push_left_chain (right current) rest)
        end
    end.

(** [operator*() const] *)
Definition deref (it : TreeIterator) : result (K * V) :=
  if negb (isLegal it) then throw IteratorExhausted
  else
    match it with
    | [] => throw IteratorExhausted
    | top :: _ => ret (payload top)
    end.

(** [operator->() const] *)
Definition arrow (it : TreeIterator) : result (K * V) :=
  if negb (isLegal it) then throw IteratorExhausted
  else
    match it with
    | [] => throw IteratorExhausted
    | current :: _ => ret (payload current)
    end.

(** [operator++(int)]: the copy made before the increment is returned. *)
Definition post_incr (it : TreeIterator)
  : result TreeIterator * TreeIterator :=
  let tmp := it in
  match incr it with
  | (throw e, it') => (throw e, it')
  | (ret _, it') => (ret tmp, it')
  end.

Definition begin_ (t : TreeMap) : TreeIterator := TreeIterator_of (root_ t).
Definition end_ (t : TreeMap) : TreeIterator := TreeIterator_end.

(** ** Specification vocabulary *)

Unset Implicit Arguments.

Fixpoint count (t : ptr) : nat :=
  match t with
  | nullptr => 0
  | Node _ _ r l => S (count l + count r)
  end.

(** Payloads in left-node-right order. *)
Fixpoint inorder (t : ptr) : list (K * V) :=
  match t with
  | nullptr => []
  | Node _ p r l => inorder l ++ p :: inorder r
  end.

Definition keys (t : ptr) : list K := map fst (inorder t).

(** The ordering invariant of the data model: below every node, the left
    subtree holds smaller keys only and the right subtree greater keys only. *)
Fixpoint bst (t : ptr) : Prop :=
  match t with
  | nullptr => True
  | Node _ p r l =>
      Forall (fun k => less k (fst p) = true) (keys l) /\
      Forall (fun k => greater k (fst p) = true) (keys r) /\
      bst l /\ bst r
  end.

Definition ascending (ks : list K) : Prop :=
  StronglySorted (fun a b => less a b = true) ks.

(** The tree invariant: the counter is the number of reachable nodes (and,
    being an unsigned int, lies in its range), the ordering invariant holds
    and keys are pairwise distinct. *)
Record Inv (t : TreeMap) : Prop := mkInv {
  inv_count : size_ t = Z.of_nat (count (root_ t));
  inv_uint : (0 <= size_ t <= UINT_MAX)%Z;
  inv_bst : bst (root_ t);
  inv_distinct : NoDup (keys (root_ t))
}.

(** The position of a node in a tree: the ancestors from the root down, each
    with the side on which the descent continues and the sibling subtree. *)
Inductive step : Type :=
| GoRight (a : addr) (p : K * V) (l : ptr)
| GoLeft (a : addr) (p : K * V) (r : ptr).

Fixpoint plug (C : list step) (t : ptr) : ptr :=
  match C with
  | [] => t
  | GoRight a p l :: C' => Node a p (plug C' t) l
  | GoLeft a p r :: C' => Node a p r (plug C' t)
  end.

(** What the matching branch of [removeHelper] leaves in place of the node. *)
Definition spliced (r l : ptr) : ptr :=
  match r with
  | Node ra rp rr rl => fst (addHelper l (mkNode ra rp rr rl))
  | nullptr => l
  end.

(** The first testable property of the specification, read literally, for
    one outcome of the allocation. *)
Definition add_new_key_claim (new_ : alloc) (key : K) (value : V)
  (t : TreeMap) : Prop :=
  ~ In key (keys (root_ t)) ->
  fst (add new_ key value t) = true /\
  at_ key (snd (add new_ key value t)) = ret value /\
  size (snd (add new_ key value t)) = (size t + 1)%Z.

(** Preservation of the invariant by [add], read literally. *)
Definition add_preserves_Inv_claim (new_ : alloc) (key : K) (value : V)
  (t : TreeMap) : Prop :=
  Inv t -> Inv (snd (add new_ key value t)).

(** Successive successful insertions, each with the address its node is
    allocated at. *)
Definition add_all (kvs : list (addr * (K * V))) (t : TreeMap) : TreeMap :=
  fold_left
    (fun t x => snd (add (fresh (fst x)) (fst (snd x)) (snd (snd x)) t))
    kvs t.

(** What an iterator whose stack is [it] still has to yield. *)
Definition remaining (it : TreeIterator) : list (K * V) :=
  flat_map (fun n => payload n :: inorder (right n)) it.

(** [n] successful prefix increments. *)
Fixpoint advance (n : nat) (it : TreeIterator) : result TreeIterator :=
  match n with
  | O => ret it
  | S n' =>
      match incr it with
      | (throw e, _) => throw e
      | (ret _, it') => advance n' it'
      end
  end.

(** *** The client loop
    [for (it = t.begin(); it != t.end(); ++it) out.push_back( *it );] *)

(** Nodes still to be visited by an iterator: every stacked node and its
    right subtree. *)
Fixpoint pending (it : TreeIterator) : nat :=
  match it with
  | [] => 0
  | n :: rest => S (count (right n)) + pending rest
  end.

Lemma pending_push_left_chain root st :
  pending (push_left_chain root st) = count root + pending st.
Proof.
  revert st; induction root as [|a p r IHr l IHl]; intros st; simpl.
  - reflexivity.
  - rewrite IHl. simpl. lia.
Qed.

Lemma incr_pending it it' u :
  incr it = (ret u, it') -> pending it = S (pending it').
Proof.
  unfold incr. destruct it as [|n rest]; simpl; [discriminate|].
  assert (E : pending (push_left_chain (right n) rest)
               = count (right n) + pending rest)
    by apply pending_push_left_chain.
  destruct (right n); intros H; injection H as _ <-.
  - reflexivity.
  - simpl in E. rewrite E. reflexivity.
Qed.

Definition inspect {A} (a : A) : {b : A | a = b} := exist _ a eq_refl.

Equations? traverse (it : TreeIterator) : result (list (K * V))
  by wf (pending it) lt :=
  traverse it with inspect (iter_neq it TreeIterator_end) := {
    | exist _ false _ => ret [];
    | exist _ true _ with inspect (deref it) := {
      | exist _ (throw e) _ => throw e;
      | exist _ (ret p) _ with inspect (incr it) := {
        | exist _ (throw e, _) _ => throw e;
        | exist _ (ret _, it') Hincr =>
            out <- traverse it' ;; ret (p :: out) } } }.
Proof.
  rewrite (incr_pending _ _ _ Hincr). lia.
Qed.

(** *** Facts that need no assumption on the key order *)

Lemma count_inorder t : count t = length (inorder t).
Proof.
  induction t as [|a p r IHr l IHl]; simpl; [reflexivity|].
  rewrite length_app; simpl. lia.
Qed.

Lemma remaining_push_left_chain root st :
  remaining (push_left_chain root st) = inorder root ++ remaining st.
Proof.
  revert st; induction root as [|a p r IHr l IHl]; intros st; simpl.
  - reflexivity.
  - rewrite IHl. simpl. rewrite <- app_assoc. reflexivity.
Qed.

Lemma incr_remaining n rest :
  incr (n :: rest) = (ret tt, push_left_chain (right n) rest).
Proof.
  unfold incr; simpl. destruct (right n); reflexivity.
Qed.

Lemma traverse_remaining it : traverse it = ret (remaining it).
Proof.
  remember (pending it) as m eqn:Hm.
  revert it Hm.
  induction m as [m IH] using (well_founded_induction Nat.lt_wf_0).
  intros [|n rest] Hm.
  - reflexivity.
  - simp traverse. simpl.
    rewrite incr_remaining. simpl.
    rewrite (IH (pending (push_left_chain (right n) rest))).
    + simpl. rewrite remaining_push_left_chain. reflexivity.
    + subst m. rewrite pending_push_left_chain. simpl. lia.
    + reflexivity.
Qed.

(** *** The key order

    The key class supplies [<] and [>]; the container relies on them being
    the two directions of one strict total order. *)

Hypothesis greater_less : forall a b, greater a b = less b a.
Hypothesis less_irrefl : forall a, less a a = false.
Hypothesis less_trans :
  forall a b c, less a b = true -> less b c = true -> less a c = true.
Hypothesis less_total :
  forall a b, less a b = false -> less b a = false -> a = b.

Lemma less_asym a b : less a b = true -> less b a = false.
Proof.
  intros H. destruct (less b a) eqn:E; [|reflexivity].
  rewrite <- (less_irrefl a). symmetry. eapply less_trans; eassumption.
Qed.

Lemma less_neq a b : less a b = true -> a <> b.
Proof. intros H ->. rewrite less_irrefl in H. discriminate. Qed.

(** Three-way comparison as the helpers perform it. *)
Inductive cmp_spec (a b : K) : bool -> bool -> Prop :=
| cmp_lt : less a b = true -> a <> b -> cmp_spec a b true false
| cmp_gt : less b a = true -> a <> b -> cmp_spec a b false true
| cmp_eq : a = b -> cmp_spec a b false false.

Lemma cmpP a b : cmp_spec a b (less a b) (greater a b).
Proof.
  rewrite greater_less.
  destruct (less a b) eqn:E1.
  - rewrite (less_asym _ _ E1). constructor; [assumption|].
    now apply less_neq.
  - destruct (less b a) eqn:E2.
    + constructor; [assumption|]. intros ->. now apply (less_neq _ _ E2).
    + constructor. now apply less_total.
Qed.

(** *** Lookup *)

Lemma atHelper_absent t k :
  ~ In k (keys t) -> atHelper t k = throw KeyNotFound.
Proof.
  unfold keys.
  induction t as [|a p r IHr l IHl]; simpl; intros Hni; [reflexivity|].
  rewrite map_app, in_app_iff in Hni; simpl in Hni.
  destruct (cmpP (fst p) k) as [_ _|_ _|E].
  - apply IHr. tauto.
  - apply IHl. tauto.
  - exfalso. apply Hni. right. left. exact E.
Qed.

Lemma In_keys t k v : In (k, v) (inorder t) -> In k (keys t).
Proof. intros H. unfold keys. change k with (fst (k, v)). now apply in_map. Qed.

Lemma Forall_keys_In (P : K -> Prop) t k v :
  Forall P (keys t) -> In (k, v) (inorder t) -> P k.
Proof.
  intros HF HIn. rewrite Forall_forall in HF. apply HF.
  eapply In_keys; eassumption.
Qed.

Lemma atHelper_present t k v :
  bst t -> In (k, v) (inorder t) -> atHelper t k = ret v.
Proof.
  induction t as [|a p r IHr l IHl]; simpl; [tauto|].
  intros (Hl & Hr & Bl & Br) HIn.
  apply in_app_or in HIn. simpl in HIn.
  destruct (cmpP (fst p) k) as [Hlt _|Hgt _|E].
  - destruct HIn as [HIn|[->|HIn]].
    + pose proof (Forall_keys_In _ _ _ _ Hl HIn) as H; simpl in H.
      rewrite (less_asym _ _ Hlt) in H. discriminate.
    + simpl in Hlt. rewrite less_irrefl in Hlt. discriminate.
    + now apply IHr.
  - destruct HIn as [HIn|[->|HIn]].
    + now apply IHl.
    + simpl in Hgt. rewrite less_irrefl in Hgt. discriminate.
    + pose proof (Forall_keys_In _ _ _ _ Hr HIn) as H; simpl in H.
      rewrite greater_less, (less_asym _ _ Hgt) in H. discriminate.
  - destruct HIn as [HIn|[->|HIn]].
    + pose proof (Forall_keys_In _ _ _ _ Hl HIn) as H; simpl in H.
      rewrite E, less_irrefl in H. discriminate.
    + reflexivity.
    + pose proof (Forall_keys_In _ _ _ _ Hr HIn) as H; simpl in H.
      rewrite E, greater_less, less_irrefl in H. discriminate.
Qed.

Lemma atHelper_In t k v : atHelper t k = ret v -> In (k, v) (inorder t).
Proof.
  induction t as [|a p r IHr l IHl]; simpl; [discriminate|].
  destruct (cmpP (fst p) k) as [_ _|_ _|E]; intros H.
  - apply in_or_app. right. right. now apply IHr.
  - apply in_or_app. left. now apply IHl.
  - injection H as <-. apply in_or_app. right. left.
    rewrite <- E. now destruct p.
Qed.

(** *** Ascending key lists and the ordering invariant *)

Lemma ascending_app l1 l2 :
  ascending (l1 ++ l2) <->
  ascending l1 /\ ascending l2 /\
  (forall a b, In a l1 -> In b l2 -> less a b = true).
Proof.
  unfold ascending. induction l1 as [|x l1 IH]; simpl.
  - split.
    + intros H. repeat split; [constructor | assumption | tauto].
    + tauto.
  - split.
    + intros H. apply StronglySorted_inv in H as [H1 H2].
      apply IH in H1 as (S1 & S2 & C).
      rewrite Forall_app in H2. destruct H2 as [F1 F2].
      repeat split; [now constructor | assumption |].
      intros a b [<-|Ha] Hb.
      * rewrite Forall_forall in F2. now apply F2.
      * now apply C.
    + intros (S1 & S2 & C).
      apply StronglySorted_inv in S1 as [S1 F1].
      constructor.
      * apply IH. repeat split; auto.
      * rewrite Forall_app. split; [assumption|].
        rewrite Forall_forall. intros b Hb. apply C; auto.
Qed.

Lemma ascending_cons x l :
  ascending (x :: l) <-> Forall (fun b => less x b = true) l /\ ascending l.
Proof.
  unfold ascending. split.
  - intros H. apply StronglySorted_inv in H. tauto.
  - intros [F S]. now constructor.
Qed.

Lemma ascending_NoDup l : ascending l -> NoDup l.
Proof.
  induction l as [|x l IH]; intros H; [constructor|].
  apply ascending_cons in H as [F S].
  constructor; [|now apply IH].
  intros HIn. rewrite Forall_forall in F. specialize (F _ HIn).
  rewrite less_irrefl in F. discriminate.
Qed.

Lemma keys_Node a p r l : keys (Node a p r l) = keys l ++ fst p :: keys r.
Proof. unfold keys; simpl. now rewrite map_app. Qed.

Lemma bst_ascending t : bst t <-> ascending (keys t).
Proof.
  induction t as [|a p r IHr l IHl].
  - simpl. split; [constructor | trivial].
  - rewrite keys_Node, ascending_app, ascending_cons. simpl.
    rewrite IHl, IHr. rewrite !Forall_forall.
    split.
    + intros (Hl & Hr & Sl & Sr). repeat split; try assumption.
      * intros b Hb. rewrite <- greater_less. now apply Hr.
      * intros x b Hx [<-|Hb]; [now apply Hl|].
        apply less_trans with (fst p); [now apply Hl|].
        rewrite <- greater_less. now apply Hr.
    + intros (Sl & (Hr & Sr) & C). repeat split; try assumption.
      * intros x Hx. apply C; [assumption | now left].
      * intros x Hx. rewrite greater_less. now apply Hr.
Qed.

Lemma bst_NoDup t : bst t -> NoDup (keys t).
Proof. intros H. now apply ascending_NoDup, bst_ascending. Qed.

(** *** Insertion *)

(** Discharges the equational conjuncts of a goal, up to reassociation of
    list concatenations. *)
Ltac list_eq :=
  solve [ reflexivity
        | repeat rewrite <- app_assoc; simpl;
          repeat rewrite <- app_assoc; reflexivity ].
Ltac split_eqs := repeat (split; [ list_eq | ]).

(** A key collision leaves the subtree as it is. *)
Lemma addHelper_collision t n v :
  atHelper t (fst (payload n)) = ret v -> addHelper t n = (t, false).
Proof.
  induction t as [|a p r IHr l IHl]; simpl; [discriminate|].
  destruct (less (fst p) (fst (payload n))).
  - intros H. now rewrite (IHr H).
  - destruct (greater (fst p) (fst (payload n))).
    + intros H. now rewrite (IHl H).
    + reflexivity.
Qed.

(** After a successful insertion the search for the new key ends at the
    new node. *)
Lemma atHelper_addHelper t n t' :
  addHelper t n = (t', true) ->
  atHelper t' (fst (payload n)) = ret (snd (payload n)).
Proof.
  revert t'. induction t as [|a p r IHr l IHl]; simpl; intros t' H.
  - injection H as <-. simpl.
    now rewrite greater_less, less_irrefl.
  - destruct (less (fst p) (fst (payload n))) eqn:E1.
    + destruct (addHelper r n) as [r' s]. injection H as <- ->.
      simpl. rewrite E1. now apply IHr.
    + destruct (greater (fst p) (fst (payload n))) eqn:E2.
      * destruct (addHelper l n) as [l' s]. injection H as <- ->.
        simpl. rewrite E1, E2. now apply IHl.
      * discriminate.
Qed.

(** Inserting a node whose key is absent succeeds and places the node (with
    whatever hangs below it) at one position of the in-order sequence; in a
    search tree that position separates the smaller keys from the greater. *)
Lemma addHelper_absent t n :
  ~ In (fst (payload n)) (keys t) ->
  exists t' l1 l2,
    addHelper t n = (t', true) /\
    inorder t = l1 ++ l2 /\
    inorder t' = l1 ++ inorder (ptr_to n) ++ l2 /\
    (bst t ->
     Forall (fun x => less x (fst (payload n)) = true) (map fst l1) /\
     Forall (fun x => less (fst (payload n)) x = true) (map fst l2)).
Proof.
  induction t as [|a p r IHr l IHl]; intros Hni.
  - exists (ptr_to n), [], []. simpl. rewrite app_nil_r.
    repeat split; constructor.
  - rewrite keys_Node, in_app_iff in Hni. simpl in Hni. simpl.
    destruct (cmpP (fst p) (fst (payload n))) as [Hlt _|Hgt _|E].
    + destruct IHr as (r' & l1 & l2 & -> & Er & Er' & HB); [tauto|].
      exists (Node a p r' l), (inorder l ++ p :: l1), l2. simpl.
      rewrite Er, Er'. split_eqs.
      intros (Hl & Hr & Bl & Br). destruct (HB Br) as [F1 F2].
      split; [|assumption].
      rewrite map_app, Forall_app. simpl. split; [|now constructor].
      eapply Forall_impl; [|exact Hl]. simpl.
      intros x Hx. now apply less_trans with (fst p).
    + destruct IHl as (l' & l1 & l2 & -> & El & El' & HB); [tauto|].
      exists (Node a p r l'), l1, (l2 ++ p :: inorder r). simpl.
      rewrite El, El'. split_eqs.
      intros (Hl & Hr & Bl & Br). destruct (HB Bl) as [F1 F2].
      split; [assumption|].
      rewrite map_app, Forall_app. simpl. split; [assumption|].
      constructor; [assumption|].
      eapply Forall_impl; [|exact Hr]. simpl.
      intros x Hx. rewrite greater_less in Hx.
      now apply less_trans with (fst p).
    + tauto.
Qed.

(** Inserting a node whose key exceeds every key of the subtree appends it,
    and what hangs below it, at the end of the in-order sequence. *)
Lemma addHelper_above t n :
  Forall (fun x => less x (fst (payload n)) = true) (keys t) ->
  exists t',
    addHelper t n = (t', true) /\
    inorder t' = inorder t ++ inorder (ptr_to n).
Proof.
  induction t as [|a p r IHr l IHl]; intros HF.
  - exists (ptr_to n). split; reflexivity.
  - rewrite keys_Node, Forall_app in HF. destruct HF as [Fl HF].
    apply Forall_cons_iff in HF as [Hp Fr].
    destruct (IHr Fr) as (r' & E & Er').
    exists (Node a p r' l). simpl. rewrite Hp, E. simpl.
    rewrite Er', <- app_assoc. split; reflexivity.
Qed.

(** *** Removal *)

Lemma removeHelper_absent t k :
  ~ In k (keys t) -> removeHelper t k = throw KeyNotFound.
Proof.
  induction t as [|a p r IHr l IHl]; intros Hni; [reflexivity|].
  rewrite keys_Node, in_app_iff in Hni. simpl in Hni. simpl.
  destruct (cmpP (fst p) k) as [_ _|_ _|E].
  - rewrite IHr; [reflexivity | tauto].
  - rewrite IHl; [reflexivity | tauto].
  - tauto.
Qed.

Lemma spliced_inorder a p r l :
  bst (Node a p r l) ->
  inorder (spliced r l) = inorder l ++ inorder r /\
  (forall ra rp rr rl, r = Node ra rp rr rl ->
     snd (addHelper l (mkNode ra rp rr rl)) = true).
Proof.
  intros (Hl & Hr & Bl & Br).
  destruct r as [|ra rp rr rl]; simpl.
  - split; [now rewrite app_nil_r | discriminate].
  - destruct (addHelper_above l (mkNode ra rp rr rl)) as (t' & E & Et').
    + simpl. rewrite keys_Node, Forall_app in Hr.
      destruct Hr as [_ Hr]. apply Forall_cons_iff in Hr as [Hrp _].
      rewrite greater_less in Hrp.
      eapply Forall_impl; [|exact Hl]. simpl.
      intros x Hx. now apply less_trans with (fst p).
    + rewrite E. simpl. split; [exact Et'|].
      intros ? ? ? ? H. injection H as <- <- <- <-. now rewrite E.
Qed.

(** Removing a present key from a search tree succeeds, returns the value
    stored under the key, and takes exactly that entry out of the in-order
    sequence. *)
Lemma removeHelper_present t k :
  bst t -> In k (keys t) ->
  exists t' v l1 l2,
    removeHelper t k = ret (t', v) /\
    inorder t = l1 ++ (k, v) :: l2 /\
    inorder t' = l1 ++ l2.
Proof.
  induction t as [|a p r IHr l IHl]; intros B HIn; [destruct HIn|].
  pose proof B as (Hl & Hr & Bl & Br).
  rewrite keys_Node, in_app_iff in HIn. simpl in HIn.
  rewrite Forall_forall in Hl, Hr.
  simpl removeHelper.
  destruct (cmpP (fst p) k) as [Hlt Hne|Hgt Hne|E].
  - assert (Hk : In k (keys r)).
    { destruct HIn as [H|[H|H]]; [|tauto|assumption].
      apply Hl in H. rewrite (less_asym _ _ Hlt) in H. discriminate. }
    destruct (IHr Br Hk) as (r' & v & l1 & l2 & -> & E1 & E2).
    exists (Node a p r' l), v, (inorder l ++ p :: l1), l2. simpl.
    rewrite E1, E2. split_eqs. list_eq.
  - assert (Hk : In k (keys l)).
    { destruct HIn as [H|[H|H]]; [assumption|tauto|].
      apply Hr in H. rewrite greater_less, (less_asym _ _ Hgt) in H.
      discriminate. }
    destruct (IHl Bl Hk) as (l' & v & l1 & l2 & -> & E1 & E2).
    exists (Node a p r l'), v, l1, (l2 ++ p :: inorder r). simpl.
    rewrite E1, E2. split_eqs. list_eq.
  - destruct (spliced_inorder _ _ _ _ B) as [Es _].
    exists (spliced r l), (snd p), (inorder l), (inorder r).
    split; [reflexivity|]. split; [|exact Es].
    simpl. rewrite <- E. now destruct p.
Qed.

(** *** Consequences for the ordering invariant *)

Lemma atHelper_throw_absent t k e :
  bst t -> atHelper t k = throw e -> ~ In k (keys t).
Proof.
  intros B H HIn. unfold keys in HIn. apply in_map_iff in HIn.
  destruct HIn as ([k' v] & <- & HIn). simpl in H.
  rewrite (atHelper_present _ _ _ B HIn) in H. discriminate.
Qed.

Lemma ascending_insert l1 l2 k :
  ascending (map fst l1 ++ map fst l2) ->
  Forall (fun x => less x k = true) (map (@fst K V) l1) ->
  Forall (fun x => less k x = true) (map (@fst K V) l2) ->
  ascending (map fst l1 ++ k :: map fst l2).
Proof.
  intros S F1 F2. apply ascending_app in S as (S1 & S2 & C).
  apply ascending_app. repeat split.
  - assumption.
  - apply ascending_cons. now split.
  - rewrite Forall_forall in F1, F2.
    intros x y Hx [<-|Hy]; [now apply F1 | now apply C].
Qed.

Lemma ascending_delete (l1 l2 : list K) k :
  ascending (l1 ++ k :: l2) -> ascending (l1 ++ l2) /\ ~ In k (l1 ++ l2).
Proof.
  intros S. pose proof (ascending_NoDup _ S) as ND.
  apply NoDup_remove_2 in ND. split; [|assumption].
  apply ascending_app in S as (S1 & S2 & C).
  apply ascending_cons in S2 as [F S2].
  apply ascending_app. repeat split; try assumption.
  intros x y Hx Hy. apply C; [assumption | now right].
Qed.

(** A successful insertion of a single fresh node, seen on the in-order
    sequence of a search tree. *)
Lemma addHelper_leaf_bst t a k v :
  bst t -> ~ In k (keys t) ->
  exists t',
    addHelper t (mkNode a (k, v) nullptr nullptr) = (t', true) /\
    bst t' /\
    count t' = S (count t) /\
    Permutation (inorder t') ((k, v) :: inorder t).
Proof.
  intros B Hni.
  destruct (addHelper_absent t (mkNode a (k, v) nullptr nullptr) Hni)
    as (t' & l1 & l2 & E & E1 & E2 & HB).
  destruct (HB B) as [F1 F2]. simpl in F1, F2.
  unfold ptr_to in E2. simpl in E2.
  exists t'. split; [exact E|].
  repeat split.
  - apply bst_ascending. unfold keys. rewrite E2, map_app. simpl.
    apply ascending_insert; try assumption.
    rewrite <- map_app, <- E1. now apply bst_ascending.
  - rewrite !count_inorder, E1, E2, !length_app. simpl. lia.
  - rewrite E1, E2. symmetry. apply Permutation_middle.
Qed.

Lemma uint_succ z :
  (0 <= z < UINT_MAX)%Z -> uint (z + 1) = (z + 1)%Z.
Proof. unfold uint, UINT_MAX. intros H. apply Z.mod_small. lia. Qed.

Lemma uint_pred z :
  (0 < z <= UINT_MAX)%Z -> uint (z - 1) = (z - 1)%Z.
Proof. unfold uint, UINT_MAX. intros H. apply Z.mod_small. lia. Qed.

Lemma TreeMap_eta t : {| size_ := size_ t; root_ := root_ t |} = t.
Proof. now destruct t. Qed.

Lemma add_success a k v t t' :
  addHelper (root_ t) (mkNode a (k, v) nullptr nullptr) = (t', true) ->
  add (fresh a) k v t
  = (true, {| size_ := uint (size_ t + 1); root_ := t' |}).
Proof. intros E. unfold add. now rewrite E. Qed.

(** [add] on a key that is already stored is the identity on the map. *)
Lemma add_collision new_ k v v' t :
  at_ k t = ret v -> add new_ k v' t = (false, t).
Proof.
  unfold at_, add. intros H. destruct new_ as [|a]; [reflexivity|].
  rewrite (addHelper_collision (root_ t) (mkNode a (k, v') nullptr nullptr) v)
    by exact H.
  now rewrite TreeMap_eta.
Qed.

Lemma add_Inv new_ k v t :
  Inv t ->
  (size_ t < UINT_MAX)%Z \/ fst (add new_ k v t) = false ->
  Inv (snd (add new_ k v t)).
Proof.
  intros [Hc Hu B ND] Hcap.
  destruct new_ as [|a]; [now constructor|].
  destruct (atHelper (root_ t) k) as [v0|e] eqn:Hat.
  - rewrite (add_collision (fresh a) k v0 v t Hat). now constructor.
  - apply (atHelper_throw_absent _ _ _ B) in Hat.
    destruct (addHelper_leaf_bst _ a _ v B Hat) as (t' & E & B' & Ec & _).
    unfold add in *. rewrite E in *. simpl in *.
    destruct Hcap as [Hcap|Hcap]; [|discriminate].
    constructor; simpl.
    + rewrite uint_succ by lia. rewrite Ec. lia.
    + rewrite uint_succ by lia. lia.
    + assumption.
    + now apply bst_NoDup.
Qed.

Lemma remove_Inv k t : Inv t -> Inv (snd (remove k t)).
Proof.
  intros [Hc Hu B ND]. unfold remove.
  destruct (atHelper (root_ t) k) as [v0|e] eqn:Hat.
  - apply atHelper_In, In_keys in Hat.
    destruct (removeHelper_present _ _ B Hat) as (t' & v & l1 & l2 & -> & E1 & E2).
    simpl.
    assert (Hlen : count (root_ t) = S (count t')).
    { rewrite !count_inorder, E1, E2, !length_app. simpl. lia. }
    assert (B' : bst t').
    { apply bst_ascending. apply bst_ascending in B. unfold keys in *.
      rewrite E1 in B. rewrite E2. rewrite map_app in *. simpl in B.
      now apply ascending_delete in B. }
    constructor; simpl.
    + rewrite uint_pred by lia. lia.
    + rewrite uint_pred by lia. lia.
    + assumption.
    + now apply bst_NoDup.
  - apply (atHelper_throw_absent _ _ _ B) in Hat.
    rewrite (removeHelper_absent _ _ Hat). now constructor.
Qed.

(** ** The operations of the map *)

(** C1 (as amended). When the allocation of the new node succeeds, adding a
    key that is not in the tree returns true and a subsequent [at] of the key
    returns the value added; [size()] grows by exactly one as long as it was
    below [UINT_MAX], and wraps to 0 when it was [UINT_MAX]. *)
Theorem add_new_key a key value t :
  ~ In key (keys (root_ t)) -> (0 <= size_ t <= UINT_MAX)%Z ->
  fst (add (fresh a) key value t) = true /\
  at_ key (snd (add (fresh a) key value t)) = ret value /\
  ((size_ t < UINT_MAX)%Z ->
   size (snd (add (fresh a) key value t)) = (size t + 1)%Z) /\
  (size_ t = UINT_MAX ->
   size (snd (add (fresh a) key value t)) = 0%Z).
Proof.
  intros Hni Hu.
  destruct (addHelper_absent (root_ t) (mkNode a (key, value) nullptr nullptr)
              Hni) as (t' & l1 & l2 & E & _).
  pose proof (atHelper_addHelper _ _ _ E) as Hat. simpl in Hat.
  unfold add, at_, size. rewrite E. simpl.
  repeat split.
  - exact Hat.
  - intros Hlt. apply uint_succ. lia.
  - intros ->. reflexivity.
Qed.

(** C2. Adding a key that is already stored with value [v1] returns false
    and leaves the map exactly as it was, whatever the allocation does: the
    key still maps to [v1] and [size()] is unchanged. *)
Theorem add_existing_key new_ k v1 v2 t :
  bst (root_ t) -> In (k, v1) (inorder (root_ t)) ->
  add new_ k v2 t = (false, t) /\
  at_ k (snd (add new_ k v2 t)) = ret v1 /\
  size (snd (add new_ k v2 t)) = size t.
Proof.
  intros B HIn.
  pose proof (atHelper_present _ _ _ B HIn) as Hat.
  rewrite (add_collision new_ k v1 v2 t Hat). simpl.
  repeat split. exact Hat.
Qed.

(** C3. Removing a key stored with value [v] returns [v], decreases
    [size()] by exactly one, and afterwards [at] of that key throws the
    key-not-found exception. *)
Theorem remove_present_key k v t :
  Inv t -> In (k, v) (inorder (root_ t)) ->
  fst (remove k t) = ret v /\
  size (snd (remove k t)) = (size t - 1)%Z /\
  at_ k (snd (remove k t)) = throw KeyNotFound.
Proof.
  intros [Hc Hu B ND] HIn.
  destruct (removeHelper_present _ _ B (In_keys _ _ _ HIn))
    as (t' & v' & l1 & l2 & E & E1 & E2).
  assert (v' = v) as ->.
  { pose proof (atHelper_present _ _ _ B HIn) as H1.
    assert (H2 : In (k, v') (inorder (root_ t)))
      by (rewrite E1; apply in_elt).
    rewrite (atHelper_present _ _ _ B H2) in H1. now injection H1. }
  unfold remove, at_, size. rewrite E. simpl.
  repeat split.
  - apply uint_pred. rewrite Hc in *.
    rewrite count_inorder, E1, length_app in *. simpl in *. lia.
  - apply atHelper_absent.
    apply bst_ascending in B. unfold keys in *.
    rewrite E1, map_app in B. simpl in B.
    apply ascending_delete in B as [_ Hni].
    now rewrite E2, map_app.
Qed.

Lemma plug_In C a p r l : In p (inorder (plug C (Node a p r l))).
Proof.
  induction C as [|[a' p' l'|a' p' r'] C IH]; simpl.
  - apply in_elt.
  - apply in_or_app. right. now right.
  - apply in_or_app. now left.
Qed.

Lemma removeHelper_plug C a p r l :
  bst (plug C (Node a p r l)) ->
  removeHelper (plug C (Node a p r l)) (fst p)
  = ret (plug C (spliced r l), snd p).
Proof.
  induction C as [|[a' p' l'|a' p' r'] C IH]; simpl.
  - intros _. now rewrite greater_less, less_irrefl.
  - intros (Hl & Hr & Bl & Br).
    pose proof (plug_In C a p r l) as HIn.
    destruct p as [k v].
    apply (Forall_keys_In _ _ _ _ Hr) in HIn. simpl in *.
    rewrite greater_less in HIn. rewrite HIn, (IH Br). reflexivity.
  - intros (Hl & Hr & Bl & Br).
    pose proof (plug_In C a p r l) as HIn.
    destruct p as [k v].
    apply (Forall_keys_In _ _ _ _ Hl) in HIn. simpl in *.
    rewrite (less_asym _ _ HIn), greater_less, HIn, (IH Bl). reflexivity.
Qed.

Lemma bst_plug_inv C t : bst (plug C t) -> bst t.
Proof.
  induction C as [|[a' p' l'|a' p' r'] C IH]; simpl; [tauto| |];
    intros (_ & _ & Bl & Br); auto.
Qed.

(** C4. When [removeHelper] reaches the node holding the key, wherever that
    node sits in a search tree: if the node has a right child, the insertion
    routine [addHelper] is run with the right child as the inserted node and
    the left subtree as the tree inserted into, it succeeds, and its result
    takes the node's place; without a right child the left subtree takes the
    node's place.  The value returned is the one the node held, the result is
    again a search tree, and its in-order sequence is the old one with the
    node's entry taken out, so the key itself is gone. *)
Theorem remove_splices C a p r l :
  bst (plug C (Node a p r l)) ->
  removeHelper (plug C (Node a p r l)) (fst p)
    = ret (plug C (spliced r l), snd p) /\
  (r = nullptr -> spliced r l = l) /\
  (forall ra rp rr rl, r = Node ra rp rr rl ->
     addHelper l (mkNode ra rp rr rl) = (spliced r l, true)) /\
  bst (plug C (spliced r l)) /\
  exists l1 l2,
    inorder (plug C (Node a p r l)) = l1 ++ p :: l2 /\
    inorder (plug C (spliced r l)) = l1 ++ l2 /\
    ~ In (fst p) (map fst (l1 ++ l2)).
Proof.
  intros B.
  pose proof (removeHelper_plug C a p r l B) as ER.
  split; [exact ER|].
  split; [now intros ->|].
  split.
  { intros ra rp rr rl ->.
    destruct (spliced_inorder a p _ l (bst_plug_inv _ _ B)) as [_ Hs].
    specialize (Hs _ _ _ _ eq_refl). simpl.
    destruct (addHelper l (mkNode ra rp rr rl)) as [t' s]. simpl in *.
    now subst s. }
  assert (HIn : In (fst p) (keys (plug C (Node a p r l)))).
  { unfold keys. apply in_map. apply plug_In. }
  destruct (removeHelper_present _ _ B HIn) as (t' & v & l1 & l2 & E & E1 & E2).
  rewrite ER in E. injection E as <- <-.
  replace (fst p, snd p) with p in E1 by now destruct p.
  apply bst_ascending in B. unfold keys in B.
  rewrite E1, map_app in B. simpl in B.
  apply ascending_delete in B as [S Hni].
  split.
  - apply bst_ascending. unfold keys. now rewrite E2, map_app.
  - exists l1, l2. rewrite map_app. auto.
Qed.

(** C5. For a key that is not in the tree (in particular on the empty
    tree), [at] and [remove] both throw the key-not-found exception, and
    [remove] leaves the map, its size included, exactly as it was.  The same
    holds of an [add] whose allocation fails: the map is left as it was. *)
Theorem absent_key_fails k t :
  ~ In k (keys (root_ t)) ->
  at_ k t = throw KeyNotFound /\
  remove k t = (throw KeyNotFound, t) /\
  size (snd (remove k t)) = size t /\
  (forall v, add bad_alloc k v t = (false, t)).
Proof.
  intros Hni. unfold at_, remove.
  rewrite (removeHelper_absent _ _ Hni), (atHelper_absent _ _ Hni).
  repeat split.
Qed.

(** C6 (as amended). [remove] always preserves the tree invariant (the
    stored count is the number of nodes, the ordering invariant holds, keys
    are pairwise distinct), and so does [add] whenever [size()] is below
    [UINT_MAX] before the call or the call returns false. *)
Theorem operations_preserve_Inv t :
  Inv t ->
  (forall new_ k v,
     (size_ t < UINT_MAX)%Z \/ fst (add new_ k v t) = false ->
     Inv (snd (add new_ k v t))) /\
  (forall k, Inv (snd (remove k t))).
Proof.
  intros I. split.
  - intros new_ k v H. now apply add_Inv.
  - intros k. now apply remove_Inv.
Qed.

(** ** The iterator *)

Lemma add_all_cons a k v kvs t :
  add_all ((a, (k, v)) :: kvs) t = add_all kvs (snd (add (fresh a) k v t)).
Proof. reflexivity. Qed.

Lemma add_all_bst kvs t :
  bst (root_ t) ->
  NoDup (map (fun x => fst (snd x)) kvs ++ keys (root_ t)) ->
  bst (root_ (add_all kvs t)) /\
  Permutation (keys (root_ (add_all kvs t)))
              (map (fun x => fst (snd x)) kvs ++ keys (root_ t)).
Proof.
  revert t. induction kvs as [|[a [k v]] kvs IH]; intros t B ND.
  - split; [assumption | apply Permutation_refl].
  - rewrite add_all_cons. simpl map in *. simpl app in *.
    apply NoDup_cons_iff in ND as [Hni ND].
    assert (Hk : ~ In k (keys (root_ t))).
    { intros H. apply Hni. apply in_or_app. now right. }
    destruct (addHelper_leaf_bst _ a _ v B Hk) as (t' & E & B' & _ & P).
    unfold add. rewrite E. simpl snd.
    set (t1 := {| size_ := uint (size_ t + 1); root_ := t' |}).
    assert (PP : Permutation
                   (k :: map (fun x => fst (snd x)) kvs ++ keys (root_ t))
                   (map (fun x => fst (snd x)) kvs ++ keys (root_ t1))).
    { eapply Permutation_trans; [apply Permutation_middle|].
      apply Permutation_app_head. symmetry. unfold keys. simpl.
      now apply (Permutation_map fst) in P. }
    destruct (IH t1) as [B1 P1].
    + exact B'.
    + apply (Permutation_NoDup PP). now constructor.
    + split; [exact B1|].
      eapply Permutation_trans; [exact P1|]. symmetry. exact PP.
Qed.

(** C7. Over a search tree, the loop that starts at [begin()], dereferences
    and increments until the iterator equals [end()] terminates without an
    exception and yields the entries in strictly ascending key order, each
    key once, and exactly the entries that [at] finds.  In particular, after
    inserting pairwise distinct keys in any order into an empty map, the
    keys yielded are a rearrangement of the inserted keys in ascending
    order. *)
Theorem iteration_in_order :
  (forall t, bst (root_ t) ->
     exists out,
       traverse (begin_ t) = ret out /\
       ascending (map fst out) /\
       NoDup (map fst out) /\
       length out = count (root_ t) /\
       (forall k v, In (k, v) out <-> at_ k t = ret v)) /\
  (forall kvs, NoDup (map (fun x => fst (snd x)) kvs) ->
     exists out,
       traverse (begin_ (add_all kvs TreeMap_new)) = ret out /\
       Permutation (map fst out) (map (fun x => fst (snd x)) kvs) /\
       ascending (map fst out)).
Proof.
  assert (T : forall t, traverse (begin_ t) = ret (inorder (root_ t))).
  { intros t. rewrite traverse_remaining. unfold begin_, TreeIterator_of.
    rewrite remaining_push_left_chain. simpl. now rewrite app_nil_r. }
  split.
  - intros t B. exists (inorder (root_ t)).
    split; [apply T|].
    split; [now apply bst_ascending|].
    split; [now apply bst_NoDup|].
    split; [symmetry; apply count_inorder|].
    intros k v. unfold at_. split.
    + now apply atHelper_present.
    + apply atHelper_In.
  - intros kvs ND.
    destruct (add_all_bst kvs TreeMap_new) as [B P].
    + exact I.
    + simpl. now rewrite app_nil_r.
    + exists (inorder (root_ (add_all kvs TreeMap_new))).
      split; [apply T|].
      split; [|now apply bst_ascending].
      simpl in P. now rewrite app_nil_r in P.
Qed.

(** C8. Dereferencing (with [*] or [->]) and incrementing (prefix or
    postfix) an iterator throw the iterator-exhausted exception exactly when
    its stack is empty; on a non-empty stack they succeed, no other
    exception is ever thrown, and an increment that throws leaves the
    iterator as it was. *)
Theorem exhausted_iff_empty_stack it :
  (isLegal it = false <-> it = []) /\
  (fst (incr it) = throw IteratorExhausted <-> it = []) /\
  (fst (post_incr it) = throw IteratorExhausted <-> it = []) /\
  (deref it = throw IteratorExhausted <-> it = []) /\
  (arrow it = throw IteratorExhausted <-> it = []) /\
  (it <> [] ->
     (exists it', incr it = (ret tt, it') /\ post_incr it = (ret it, it')) /\
     (exists p, deref it = ret p /\ arrow it = ret p)) /\
  (forall e, fst (incr it) = throw e ->
     e = IteratorExhausted /\ snd (incr it) = it) /\
  (forall e, fst (post_incr it) = throw e ->
     e = IteratorExhausted /\ snd (post_incr it) = it) /\
  (forall e, deref it = throw e -> e = IteratorExhausted) /\
  (forall e, arrow it = throw e -> e = IteratorExhausted).
Proof.
  destruct it as [|n rest].
  - split; [tauto|]. split; [simpl; tauto|]. split; [simpl; tauto|].
    split; [simpl; tauto|]. split; [simpl; tauto|].
    split; [tauto|].
    repeat (split; [simpl; intros e H; injection H as <-; auto|]).
    simpl; intros e H; injection H as <-; auto.
  - unfold post_incr. rewrite incr_remaining.
    unfold isLegal, deref, arrow. simpl.
    do 5 (split; [split; intros; discriminate|]).
    split; [intros _; split; eexists; split; reflexivity|].
    repeat (split; [intros; discriminate|]).
    intros; discriminate.
Qed.

Lemma stack_eqb_spec s1 s2 :
  stack_eqb s1 s2 = true <-> map self s1 = map self s2.
Proof.
  revert s2. induction s1 as [|n1 s1 IH]; intros [|n2 s2]; simpl;
    try (split; [reflexivity || discriminate | reflexivity || discriminate]).
  rewrite andb_true_iff, Pos.eqb_eq, IH. split.
  - intros [-> ->]. reflexivity.
  - intros H. injection H. auto.
Qed.

(** C9. Two iterators compare equal exactly when their stacks hold the same
    node addresses position by position, and unequal otherwise.  Hence
    iterators whose stacks are empty are equal whatever tree they come from,
    [end()] of any two maps in particular, and two iterators obtained by the
    same number of successful increments from [begin()] of one map are
    equal. *)
Theorem iterator_equality :
  (forall it1 it2,
     (iter_eq it1 it2 = true <-> map self it1 = map self it2) /\
     iter_neq it1 it2 = negb (iter_eq it1 it2)) /\
  (forall t1 t2, iter_eq (end_ t1) (end_ t2) = true) /\
  (forall it1 it2,
     isLegal it1 = false -> isLegal it2 = false -> iter_eq it1 it2 = true) /\
  (forall t n it1 it2,
     advance n (begin_ t) = ret it1 -> advance n (begin_ t) = ret it2 ->
     iter_eq it1 it2 = true).
Proof.
  repeat split.
  - apply stack_eqb_spec.
  - apply stack_eqb_spec.
  - intros [|? ?] [|? ?]; unfold isLegal; simpl; congruence.
  - intros t n it1 it2 H1 H2. rewrite H1 in H2. injection H2 as <-.
    now apply stack_eqb_spec.
Qed.

(** C10. On a map without nodes, [begin()] is past the end: it compares
    equal to [end()], and dereferencing or incrementing it throws the
    iterator-exhausted exception. *)
Theorem begin_of_empty t :
  root_ t = nullptr ->
  iter_eq (begin_ t) (end_ t) = true /\
  iter_neq (begin_ t) (end_ t) = false /\
  deref (begin_ t) = throw IteratorExhausted /\
  arrow (begin_ t) = throw IteratorExhausted /\
  incr (begin_ t) = (throw IteratorExhausted, begin_ t).
Proof.
  unfold begin_. intros ->. repeat split.
Qed.

(** ** Further properties of the operations *)

(** *** What [add] and [remove] return *)

Lemma addHelper_false t n t' : addHelper t n = (t', false) -> t' = t.
Proof.
  revert t'. induction t as [|a p r IHr l IHl]; simpl; intros t' H.
  - discriminate.
  - destruct (less (fst p) (fst (payload n))).
    + destruct (addHelper r n) as [r' s]. injection H as <- ->.
      now rewrite (IHr r' eq_refl).
    + destruct (greater (fst p) (fst (payload n))).
      * destruct (addHelper l n) as [l' s]. injection H as <- ->.
        now rewrite (IHl l' eq_refl).
      * now injection H as <-.
Qed.

Lemma addHelper_success_iff t n :
  snd (addHelper t n) = true <->
  atHelper t (fst (payload n)) = throw KeyNotFound.
Proof.
  induction t as [|a p r IHr l IHl]; simpl.
  - tauto.
  - destruct (less (fst p) (fst (payload n))).
    + destruct (addHelper r n) as [r' s]. exact IHr.
    + destruct (greater (fst p) (fst (payload n))).
      * destruct (addHelper l n) as [l' s]. exact IHl.
      * simpl. split; discriminate.
Qed.

Lemma add_false_unchanged new_ k v t :
  fst (add new_ k v t) = false -> snd (add new_ k v t) = t.
Proof.
  unfold add. destruct new_ as [|a]; [reflexivity|].
  pose proof (addHelper_false (root_ t) (mkNode a (k, v) nullptr nullptr))
    as Hf.
  destruct (addHelper (root_ t) (mkNode a (k, v) nullptr nullptr))
    as [t' s]. simpl. intros ->. rewrite (Hf t' eq_refl). apply TreeMap_eta.
Qed.

(** The return value of [add] on any tree: true exactly when the node could
    be allocated and [at] of the key would throw; and a call that returns
    false has modified nothing. *)
Theorem add_returns new_ k v t :
  (fst (add new_ k v t) = true <->
   (exists a, new_ = fresh a) /\ at_ k t = throw KeyNotFound) /\
  (fst (add new_ k v t) = false -> snd (add new_ k v t) = t).
Proof.
  unfold add, at_. destruct new_ as [|a].
  - simpl. split; [|reflexivity].
    split; [discriminate|]. intros [[a H] _]. discriminate.
  - pose proof (addHelper_success_iff (root_ t)
                  (mkNode a (k, v) nullptr nullptr)) as Hs.
    pose proof (addHelper_false (root_ t) (mkNode a (k, v) nullptr nullptr))
      as Hf.
    destruct (addHelper (root_ t) (mkNode a (k, v) nullptr nullptr))
      as [t' s]. simpl in *. split.
    + rewrite Hs. split; [intros H; split; [now exists a | exact H] | tauto].
    + intros ->. rewrite (Hf t' eq_refl). apply TreeMap_eta.
Qed.

Lemma removeHelper_atHelper t k :
  match removeHelper t k with
  | ret (_, v) => ret v
  | throw e => throw e
  end = atHelper t k.
Proof.
  induction t as [|a p r IHr l IHl]; simpl; [reflexivity|].
  destruct (less (fst p) k).
  - rewrite <- IHr. now destruct (removeHelper r k) as [[r' v]|e].
  - destruct (greater (fst p) k).
    + rewrite <- IHl. now destruct (removeHelper l k) as [[l' v]|e].
    + reflexivity.
Qed.

Lemma atHelper_throws t k e : atHelper t k = throw e -> e = KeyNotFound.
Proof.
  induction t as [|a p r IHr l IHl]; simpl.
  - intros H. now injection H.
  - destruct (less (fst p) k); [exact IHr|].
    destruct (greater (fst p) k); [exact IHl | discriminate].
Qed.

(** On any tree, [remove] returns what [at] returns for the same key: the
    stored value, or the key-not-found exception, which is the only
    exception either of them throws; and when it throws, the map is left as
    it was. *)
Theorem remove_returns_at k t :
  fst (remove k t) = at_ k t /\
  (forall e, at_ k t = throw e ->
     e = KeyNotFound /\ remove k t = (throw KeyNotFound, t)).
Proof.
  unfold remove, at_.
  pose proof (removeHelper_atHelper (root_ t) k) as H.
  destruct (removeHelper (root_ t) k) as [[t' v]|e']; simpl.
  - split; [exact H|]. intros e He. rewrite He in H. discriminate.
  - split; [exact H|]. intros e He.
    pose proof (atHelper_throws _ _ _ He) as ->.
    rewrite He in H. injection H as ->. now split.
Qed.

(** *** Insertion undone by removal *)

Lemma removeHelper_addHelper t a k v t' :
  addHelper t (mkNode a (k, v) nullptr nullptr) = (t', true) ->
  removeHelper t' k = ret (t, v).
Proof.
  revert t'. induction t as [|a' p r IHr l IHl]; simpl; intros t' H.
  - injection H as <-. unfold ptr_to. simpl.
    now rewrite greater_less, less_irrefl.
  - destruct (less (fst p) k) eqn:E1.
    + destruct (addHelper r _) as [r' s]. injection H as <- ->.
      simpl. rewrite E1, (IHr r' eq_refl). reflexivity.
    + destruct (greater (fst p) k) eqn:E2.
      * destruct (addHelper l _) as [l' s]. injection H as <- ->.
        simpl. rewrite E1, E2, (IHl l' eq_refl). reflexivity.
      * discriminate.
Qed.

Lemma uint_succ_pred z :
  (0 <= z <= UINT_MAX)%Z -> uint (uint (z + 1) - 1) = z.
Proof.
  unfold uint, UINT_MAX. intros H.
  destruct (Z.eq_dec z 4294967295) as [->|Hne]; [reflexivity|].
  rewrite (Z.mod_small (z + 1)) by lia.
  rewrite Z.mod_small by lia. lia.
Qed.

(** A successful [add] followed by [remove] of the same key returns the
    value added and restores the map exactly, shape and counter included
    (also when the counter wrapped in between). *)
Theorem add_then_remove a k v t :
  (0 <= size_ t <= UINT_MAX)%Z ->
  fst (add (fresh a) k v t) = true ->
  remove k (snd (add (fresh a) k v t)) = (ret v, t).
Proof.
  intros Hu. unfold add, remove.
  destruct (addHelper (root_ t) (mkNode a (k, v) nullptr nullptr))
    as [t' s] eqn:E. simpl. intros ->.
  rewrite (removeHelper_addHelper _ _ _ _ _ E). simpl.
  rewrite (uint_succ_pred _ Hu). now rewrite TreeMap_eta.
Qed.

(** *** Other keys are not disturbed *)

Lemma atHelper_addHelper_other t a k v t' k' :
  addHelper t (mkNode a (k, v) nullptr nullptr) = (t', true) ->
  k' <> k -> atHelper t' k' = atHelper t k'.
Proof.
  intros H Hne. revert t' H.
  induction t as [|a' p r IHr l IHl]; simpl; intros t' H.
  - injection H as <-. unfold ptr_to. simpl.
    destruct (cmpP k k') as [_ _|_ _|E]; try reflexivity.
    now elim Hne.
  - destruct (less (fst p) k).
    + destruct (addHelper r _) as [r' s]. injection H as <- ->.
      simpl. now rewrite (IHr r' eq_refl).
    + destruct (greater (fst p) k).
      * destruct (addHelper l _) as [l' s]. injection H as <- ->.
        simpl. now rewrite (IHl l' eq_refl).
      * discriminate.
Qed.

Lemma at_add_other new_ k v t k' :
  k' <> k -> at_ k' (snd (add new_ k v t)) = at_ k' t.
Proof.
  intros Hne. destruct (fst (add new_ k v t)) eqn:E.
  - destruct new_ as [|a]; [discriminate|].
    unfold add, at_ in *.
    destruct (addHelper (root_ t) (mkNode a (k, v) nullptr nullptr))
      as [t' s] eqn:Ea. simpl in *. subst s.
    exact (atHelper_addHelper_other _ _ _ _ _ _ Ea Hne).
  - now rewrite (add_false_unchanged new_ k v t E).
Qed.

(** Whatever [add] of a key does, [at] of every other key gives afterwards
    what it gave before. *)
Theorem add_frame new_ k v t k' :
  k' <> k -> at_ k' (snd (add new_ k v t)) = at_ k' t.
Proof. apply at_add_other. Qed.

Lemma removeHelper_bst t k t' v :
  bst t -> removeHelper t k = ret (t', v) ->
  bst t' /\
  exists l1 l2, inorder t = l1 ++ (k, v) :: l2 /\ inorder t' = l1 ++ l2.
Proof.
  intros B H.
  pose proof (removeHelper_atHelper t k) as Hat. rewrite H in Hat.
  symmetry in Hat. apply atHelper_In, In_keys in Hat.
  destruct (removeHelper_present _ _ B Hat) as (t1 & v1 & l1 & l2 & E & E1 & E2).
  rewrite H in E. injection E as <- <-.
  split; [|now exists l1, l2].
  apply bst_ascending. apply bst_ascending in B. unfold keys in *.
  rewrite E1 in B. rewrite E2. rewrite map_app in *. simpl in B.
  now apply ascending_delete in B.
Qed.

(** In a search tree, whatever [remove] of a key does, [at] of every other
    key gives afterwards what it gave before. *)
Theorem remove_frame k t k' :
  bst (root_ t) -> k' <> k -> at_ k' (snd (remove k t)) = at_ k' t.
Proof.
  intros B Hne. unfold remove, at_.
  destruct (removeHelper (root_ t) k) as [[t' v]|e] eqn:E; [|reflexivity].
  simpl. destruct (removeHelper_bst _ _ _ _ B E) as (B' & l1 & l2 & E1 & E2).
  destruct (atHelper (root_ t) k') as [v'|e] eqn:Hat.
  - apply atHelper_present; [exact B'|].
    apply atHelper_In in Hat. rewrite E1 in Hat. rewrite E2.
    apply in_app_or in Hat. apply in_or_app.
    destruct Hat as [H|[H|H]]; [now left | | now right].
    injection H as H _. now elim Hne.
  - pose proof (atHelper_throws _ _ _ Hat) as ->.
    destruct (atHelper t' k') as [v'|e'] eqn:Hat'.
    + apply atHelper_In in Hat'. rewrite E2 in Hat'.
      assert (HIn : In (k', v') (inorder (root_ t))).
      { rewrite E1. apply in_app_or in Hat'. apply in_or_app.
        destruct Hat' as [H|H]; [now left | right; now right]. }
      rewrite (atHelper_present _ _ _ B HIn) in Hat. discriminate.
    + now rewrite (atHelper_throws _ _ _ Hat').
Qed.

(** *** Removal undone by insertion *)

Lemma ascending_split_unique (l1 l2 m1 m2 : list (K * V)) k :
  l1 ++ l2 = m1 ++ m2 ->
  Forall (fun x => less x k = true) (map fst l1) ->
  Forall (fun x => less k x = true) (map fst l2) ->
  Forall (fun x => less x k = true) (map fst m1) ->
  Forall (fun x => less k x = true) (map fst m2) ->
  l1 = m1 /\ l2 = m2.
Proof.
  revert m1. induction l1 as [|x l1 IH]; intros [|y m1] E Fl1 Fl2 Fm1 Fm2;
    simpl in *.
  - now split.
  - subst l2. simpl in Fl2.
    apply Forall_inv in Fl2. apply Forall_inv in Fm1.
    rewrite (less_asym _ _ Fl2) in Fm1. discriminate.
  - subst m2. simpl in Fm2.
    apply Forall_inv in Fm2. apply Forall_inv in Fl1.
    rewrite (less_asym _ _ Fm2) in Fl1. discriminate.
  - injection E as -> E.
    apply Forall_inv_tail in Fl1. apply Forall_inv_tail in Fm1.
    destruct (IH m1 E Fl1 Fl2 Fm1 Fm2) as [-> ->]. now split.
Qed.

Lemma uint_pred_succ z :
  (0 < z <= UINT_MAX)%Z -> uint (uint (z - 1) + 1) = z.
Proof.
  unfold uint, UINT_MAX. intros H.
  rewrite (Z.mod_small (z - 1)) by lia.
  rewrite Z.mod_small by lia. lia.
Qed.

(** In a map satisfying the invariant, removing a stored entry and adding it
    back succeeds and restores the in-order contents, the size and the
    invariant.  (The shape of the tree need not come back: the entry returns
    as a leaf.) *)
Theorem remove_then_add a k v t :
  Inv t -> In (k, v) (inorder (root_ t)) ->
  fst (add (fresh a) k v (snd (remove k t))) = true /\
  inorder (root_ (snd (add (fresh a) k v (snd (remove k t)))))
  = inorder (root_ t) /\
  size (snd (add (fresh a) k v (snd (remove k t)))) = size t /\
  Inv (snd (add (fresh a) k v (snd (remove k t)))).
Proof.
  intros I HIn. pose proof I as [Hc Hu B ND].
  destruct (removeHelper_present _ _ B (In_keys _ _ _ HIn))
    as (t1 & v1 & l1 & l2 & E & E1 & E2).
  assert (v1 = v) as ->.
  { pose proof (atHelper_present _ _ _ B HIn) as H1.
    assert (H2 : In (k, v1) (inorder (root_ t)))
      by (rewrite E1; apply in_elt).
    rewrite (atHelper_present _ _ _ B H2) in H1. now injection H1. }
  destruct (removeHelper_bst _ _ _ _ B E) as (B1 & _).
  pose proof B as S. apply bst_ascending in S. unfold keys in S.
  rewrite E1, map_app in S. simpl in S.
  destruct (ascending_delete _ _ _ S) as [_ Hni].
  apply ascending_app in S as (_ & S2 & C).
  apply ascending_cons in S2 as [F2 _].
  assert (F1 : Forall (fun x => less x k = true) (map fst l1)).
  { rewrite Forall_forall. intros x Hx. apply C; [exact Hx | now left]. }
  rewrite <- map_app, <- E2 in Hni.
  destruct (addHelper_absent t1 (mkNode a (k, v) nullptr nullptr) Hni)
    as (t2 & m1 & m2 & Ea & Em1 & Em2 & HB).
  destruct (HB B1) as [G1 G2]. simpl in G1, G2.
  rewrite E2 in Em1.
  destruct (ascending_split_unique _ _ _ _ _ Em1 F1 F2 G1 G2) as [<- <-].
  unfold ptr_to in Em2. simpl in Em2.
  assert (Eio : inorder t2 = inorder (root_ t)) by now rewrite Em2, E1.
  unfold remove. rewrite E. cbn [snd].
  rewrite (add_success a k v {| size_ := uint (size_ t - 1); root_ := t1 |}
             t2 Ea). simpl.
  assert (Hpos : (0 < size_ t)%Z).
  { rewrite Hc, count_inorder, E1, length_app. simpl. lia. }
  unfold size. simpl. rewrite (uint_pred_succ (size_ t)) by lia.
  split; [reflexivity|]. split; [exact Eio|]. split; [reflexivity|].
  constructor; simpl.
  - now rewrite count_inorder, Eio, <- count_inorder.
  - exact Hu.
  - apply bst_ascending. unfold keys. rewrite Eio. now apply bst_ascending.
  - unfold keys. now rewrite Eio.
Qed.

(** *** Nodes keep their place in memory *)

(** The nodes of a subtree in left-node-right order, each as its address
    and its payload. *)
Fixpoint cells (t : ptr) : list (addr * (K * V)) :=
  match t with
  | nullptr => []
  | Node a p r l => cells l ++ (a, p) :: cells r
  end.

(** The nodes an iterator has still to visit, as addresses and payloads. *)
Definition remaining_cells (it : TreeIterator) : list (addr * (K * V)) :=
  flat_map (fun n => (self n, payload n) :: cells (right n)) it.

Lemma inorder_cells t : inorder t = map snd (cells t).
Proof.
  induction t as [|a p r IHr l IHl]; simpl; [reflexivity|].
  now rewrite map_app, IHl, IHr.
Qed.

Lemma addHelper_cells t n t' :
  addHelper t n = (t', true) ->
  exists c1 c2,
    cells t = c1 ++ c2 /\ cells t' = c1 ++ cells (ptr_to n) ++ c2.
Proof.
  revert t'. induction t as [|a p r IHr l IHl]; simpl; intros t' H.
  - injection H as <-. exists [], []. simpl. now rewrite app_nil_r.
  - destruct (less (fst p) (fst (payload n))).
    + destruct (addHelper r n) as [r' s]. injection H as <- ->.
      destruct (IHr r' eq_refl) as (c1 & c2 & E1 & E2).
      exists (cells l ++ (a, p) :: c1), c2. simpl.
      rewrite E1, E2. split; list_eq.
    + destruct (greater (fst p) (fst (payload n))).
      * destruct (addHelper l n) as [l' s]. injection H as <- ->.
        destruct (IHl l' eq_refl) as (c1 & c2 & E1 & E2).
        exists c1, (c2 ++ (a, p) :: cells r). simpl.
        rewrite E1, E2. split; list_eq.
      * discriminate.
Qed.

Lemma addHelper_above_cells t n :
  Forall (fun x => less x (fst (payload n)) = true) (keys t) ->
  cells (fst (addHelper t n)) = cells t ++ cells (ptr_to n).
Proof.
  induction t as [|a p r IHr l IHl]; intros HF.
  - reflexivity.
  - rewrite keys_Node, Forall_app in HF. destruct HF as [_ HF].
    apply Forall_cons_iff in HF as [Hp Fr].
    simpl. rewrite Hp. specialize (IHr Fr).
    destruct (addHelper r n) as [r' s]. simpl in *.
    rewrite IHr. list_eq.
Qed.

Lemma spliced_cells a p r l :
  bst (Node a p r l) -> cells (spliced r l) = cells l ++ cells r.
Proof.
  intros (Hl & Hr & _ & _).
  destruct r as [|ra rp rr rl]; simpl.
  - now rewrite app_nil_r.
  - apply (addHelper_above_cells l (mkNode ra rp rr rl)). simpl.
    rewrite keys_Node, Forall_app in Hr.
    destruct Hr as [_ Hr]. apply Forall_cons_iff in Hr as [Hrp _].
    rewrite greater_less in Hrp.
    eapply Forall_impl; [|exact Hl]. simpl.
    intros x Hx. now apply less_trans with (fst p).
Qed.

Lemma removeHelper_cells t k t' v :
  bst t -> removeHelper t k = ret (t', v) ->
  exists c1 a c2,
    cells t = c1 ++ (a, (k, v)) :: c2 /\ cells t' = c1 ++ c2.
Proof.
  revert t'. induction t as [|a p r IHr l IHl]; intros t' B H;
    [discriminate|].
  pose proof B as (_ & _ & Bl & Br).
  simpl in H. destruct (cmpP (fst p) k) as [_ _|_ _|E].
  - destruct (removeHelper r k) as [[r' v']|e] eqn:Er; [|discriminate].
    simpl in H. injection H as <- <-.
    destruct (IHr r' Br eq_refl) as (c1 & a' & c2 & E1 & E2).
    exists (cells l ++ (a, p) :: c1), a', c2. simpl.
    rewrite E1, E2. split; list_eq.
  - destruct (removeHelper l k) as [[l' v']|e] eqn:El; [|discriminate].
    simpl in H. injection H as <- <-.
    destruct (IHl l' Bl eq_refl) as (c1 & a' & c2 & E1 & E2).
    exists c1, a', (c2 ++ (a, p) :: cells r). simpl.
    rewrite E1, E2. split; list_eq.
  - injection H as <- <-.
    exists (cells l), a, (cells r). simpl.
    split; [|exact (spliced_cells a p r l B)].
    rewrite <- E. now destruct p.
Qed.

(** [add] and [remove] never move an entry to another node.  After a
    successful [add] the nodes of the tree, read in order as address, key
    and value, are the old ones with the new node put in at one place; after
    a successful [remove] on a search tree they are the old ones with the
    node of the key taken out.  So references and iterators to other
    entries keep pointing at their entry's node, and node addresses stay
    pairwise distinct when the allocator returns an address not in use. *)
Theorem nodes_stay_in_place t :
  (forall a k v, fst (add (fresh a) k v t) = true ->
     exists c1 c2,
       cells (root_ t) = c1 ++ c2 /\
       cells (root_ (snd (add (fresh a) k v t))) = c1 ++ (a, (k, v)) :: c2 /\
       (NoDup (map fst (cells (root_ t))) ->
        ~ In a (map fst (cells (root_ t))) ->
        NoDup (map fst (cells (root_ (snd (add (fresh a) k v t))))))) /\
  (forall k v, bst (root_ t) -> fst (remove k t) = ret v ->
     exists c1 a c2,
       cells (root_ t) = c1 ++ (a, (k, v)) :: c2 /\
       cells (root_ (snd (remove k t))) = c1 ++ c2 /\
       (NoDup (map fst (cells (root_ t))) ->
        NoDup (map fst (cells (root_ (snd (remove k t))))))).
Proof.
  split.
  - intros a k v. unfold add.
    destruct (addHelper (root_ t) (mkNode a (k, v) nullptr nullptr))
      as [t' s] eqn:E. simpl. intros ->.
    destruct (addHelper_cells _ _ _ E) as (c1 & c2 & E1 & E2).
    unfold ptr_to in E2. simpl in E2.
    exists c1, c2. split; [exact E1|]. split; [exact E2|].
    rewrite E1, E2, !map_app. simpl. intros ND Hni.
    apply NoDup_Add with (a := a) (l := map fst c1 ++ map fst c2).
    + apply Add_app.
    + now split.
  - intros k v B. unfold remove.
    destruct (removeHelper (root_ t) k) as [[t' v']|e] eqn:E;
      [|discriminate].
    simpl. intros H. injection H as ->.
    destruct (removeHelper_cells _ _ _ _ B E) as (c1 & a & c2 & E1 & E2).
    exists c1, a, c2. split; [exact E1|]. split; [exact E2|].
    rewrite E1, E2, !map_app. simpl. apply NoDup_remove_1.
Qed.

(** *** Where an iterator stands *)

Lemma remaining_cells_push_left_chain root st :
  remaining_cells (push_left_chain root st)
  = cells root ++ remaining_cells st.
Proof.
  revert st; induction root as [|a p r IHr l IHl]; intros st; simpl.
  - reflexivity.
  - rewrite IHl. simpl. rewrite <- app_assoc. reflexivity.
Qed.

Lemma remaining_remaining_cells it :
  remaining it = map snd (remaining_cells it).
Proof.
  induction it as [|n it IH]; simpl; [reflexivity|].
  now rewrite map_app, IH, inorder_cells.
Qed.

Lemma advance_spec n it :
  (n <= length (remaining_cells it) ->
   exists it', advance n it = ret it' /\
               remaining_cells it' = skipn n (remaining_cells it)) /\
  (length (remaining_cells it) < n -> advance n it = throw IteratorExhausted).
Proof.
  revert it. induction n as [|n IH]; intros it.
  - split; [|lia]. intros _. now exists it.
  - destruct it as [|x rest].
    + simpl. split; [lia | reflexivity].
    + cbn [advance]. rewrite incr_remaining.
      assert (E : remaining_cells (x :: rest)
                  = (self x, payload x)
                    :: remaining_cells (push_left_chain (right x) rest)).
      { rewrite remaining_cells_push_left_chain. reflexivity. }
      rewrite E. cbn [length skipn].
      destruct (IH (push_left_chain (right x) rest)) as [IH1 IH2].
      split; intros H; [apply IH1 | apply IH2]; lia.
Qed.

Lemma skipn_cons_nth_error {A} n (l : list A) x l' :
  skipn n l = x :: l' -> nth_error l n = Some x.
Proof.
  revert l. induction n as [|n IH]; intros [|y l] H; simpl in *;
    try discriminate.
  - now injection H as ->.
  - now apply IH.
Qed.

(** After [n] increments from [begin()], for [n] up to the number of nodes,
    the iterator has exactly the entries from the [n]-th on still to yield
    and dereferences to the [n]-th entry in key order; it equals [end()]
    exactly when [n] is the number of nodes.  Asking for more increments
    than there are nodes ends in the iterator-exhausted exception. *)
Theorem iterator_position t n :
  (n <= count (root_ t) ->
   exists it,
     advance n (begin_ t) = ret it /\
     remaining it = skipn n (inorder (root_ t)) /\
     (forall p, nth_error (inorder (root_ t)) n = Some p ->
                deref it = ret p) /\
     (iter_eq it (end_ t) = true <-> n = count (root_ t))) /\
  (count (root_ t) < n -> advance n (begin_ t) = throw IteratorExhausted).
Proof.
  assert (E0 : remaining_cells (begin_ t) = cells (root_ t)).
  { unfold begin_, TreeIterator_of.
    rewrite remaining_cells_push_left_chain. simpl. apply app_nil_r. }
  assert (Ec : count (root_ t) = length (cells (root_ t))).
  { now rewrite count_inorder, inorder_cells, length_map. }
  destruct (advance_spec n (begin_ t)) as [H1 H2]. rewrite E0 in H1, H2.
  split; [|intros H; apply H2; lia].
  intros Hn. destruct H1 as (it & Ea & Er); [lia|].
  exists it. split; [exact Ea|].
  assert (Erem : remaining it = skipn n (inorder (root_ t))).
  { now rewrite remaining_remaining_cells, Er, inorder_cells, skipn_map. }
  split; [exact Erem|]. split.
  - intros p Hp. destruct it as [|x rest].
    + simpl in Erem. symmetry in Erem.
      apply (f_equal (@length _)) in Erem. rewrite length_skipn in Erem.
      simpl in Erem.
      assert (n < length (inorder (root_ t)))
        by (apply nth_error_Some; congruence).
      lia.
    + simpl in Erem. symmetry in Erem.
      apply skipn_cons_nth_error in Erem. rewrite Erem in Hp.
      injection Hp as <-. reflexivity.
  - apply (f_equal (@length _)) in Er. rewrite length_skipn in Er.
    destruct it as [|x rest]; simpl in *.
    + split; [lia | reflexivity].
    + split; [discriminate | lia].
Qed.

(** Over a tree whose nodes have pairwise distinct addresses, iterators
    obtained from [begin()] by different numbers of increments compare
    unequal. *)
Theorem iterators_apart t m n it1 it2 :
  NoDup (map fst (cells (root_ t))) ->
  m < n ->
  advance m (begin_ t) = ret it1 ->
  advance n (begin_ t) = ret it2 ->
  iter_eq it1 it2 = false /\ iter_neq it1 it2 = true.
Proof.
  intros ND Hmn A1 A2.
  assert (E0 : remaining_cells (begin_ t) = cells (root_ t)).
  { unfold begin_, TreeIterator_of.
    rewrite remaining_cells_push_left_chain. simpl. apply app_nil_r. }
  assert (Hs : forall j it, advance j (begin_ t) = ret it ->
             j <= length (cells (root_ t)) /\
             remaining_cells it = skipn j (cells (root_ t))).
  { intros j it A. destruct (advance_spec j (begin_ t)) as [H1 H2].
    rewrite E0 in H1, H2.
    destruct (Nat.le_gt_cases j (length (cells (root_ t)))) as [Hle|Hgt].
    - split; [exact Hle|]. destruct (H1 Hle) as (it' & A' & R).
      rewrite A in A'. now injection A' as <-.
    - rewrite (H2 Hgt) in A. discriminate. }
  destruct (Hs _ _ A1) as [L1 R1]. destruct (Hs _ _ A2) as [L2 R2].
  assert (Hne : stack_eqb it1 it2 = false).
  { destruct (stack_eqb it1 it2) eqn:E; [|reflexivity]. exfalso.
    apply stack_eqb_spec in E.
    destruct it1 as [|x1 r1].
    - apply (f_equal (@length _)) in R1. rewrite length_skipn in R1.
      simpl in R1. lia.
    - destruct it2 as [|x2 r2]; [discriminate|].
      simpl in E. injection E as E _.
      simpl in R1, R2. symmetry in R1, R2.
      apply skipn_cons_nth_error in R1, R2.
      apply (map_nth_error fst) in R1, R2. simpl in R1, R2.
      assert (Hn : n < length (map fst (cells (root_ t))))
        by (apply nth_error_Some; rewrite R2; discriminate).
      assert (Hm : m = n).
      { apply (proj1 (NoDup_nth_error _) ND); [lia|].
        now rewrite R1, R2, E. }
      lia. }
  unfold iter_eq, iter_neq. now rewrite Hne.
Qed.

(** *** Sequences of operations *)

(** [for (k : ks) t.remove(k);] as the test suite runs it: the values
    removed so far, or the exception that ended the loop, and the map
    afterwards. *)
Fixpoint remove_all (ks : list K) (t : TreeMap) : result (list V) * TreeMap :=
  match ks with
  | [] => (ret [], t)
  | k :: ks' =>
      match remove k t with
      | (throw e, t') => (throw e, t')
      | (ret v, t') =>
          match remove_all ks' t' with
          | (throw e, t'') => (throw e, t'')
          | (ret vs, t'') => (ret (v :: vs), t'')
          end
      end
  end.

Fixpoint height (t : ptr) : nat :=
  match t with
  | nullptr => 0
  | Node _ _ r l => S (Nat.max (height l) (height r))
  end.

(** A tree without any left child. *)
Fixpoint right_chain (t : ptr) : Prop :=
  match t with
  | nullptr => True
  | Node _ _ r l => l = nullptr /\ right_chain r
  end.

Lemma inorder_nil t : inorder t = [] -> t = nullptr.
Proof.
  destruct t as [|a p r l]; [reflexivity|]. simpl. intros H.
  symmetry in H. now apply app_cons_not_nil in H.
Qed.

(** Removing all the keys of a map satisfying the invariant, each once and
    in any order, never throws, returns for every key the value stored
    under it, and ends with the map as the constructor makes it: no node
    and size 0. *)
Theorem remove_all_empties ks t :
  Inv t -> Permutation ks (keys (root_ t)) ->
  exists vs,
    remove_all ks t = (ret vs, TreeMap_new) /\
    length vs = length ks /\
    Permutation (combine ks vs) (inorder (root_ t)).
Proof.
  revert t. induction ks as [|k ks IH]; intros t I P.
  - exists []. apply Permutation_nil in P. unfold keys in P.
    apply map_eq_nil, inorder_nil in P.
    destruct I as [Hc _ _ _]. destruct t as [s r]. simpl in *. subst r.
    simpl in Hc. subst s. simpl.
    repeat split. constructor.
  - pose proof I as [Hc Hu B ND].
    assert (HIn : In k (keys (root_ t))).
    { apply (Permutation_in _ P). now left. }
    destruct (removeHelper_present _ _ B HIn)
      as (t' & v & l1 & l2 & E & E1 & E2).
    pose proof (remove_Inv k t I) as I1.
    cbn [remove_all]. unfold remove in *. rewrite E in *. cbn [snd] in I1.
    set (t1 := {| size_ := uint (size_ t - 1); root_ := t' |}) in *.
    destruct (IH t1 I1) as (vs & Er & El & Pv).
    + unfold keys in *. simpl. rewrite E2, map_app.
      rewrite E1, map_app in P. simpl in P.
      now apply Permutation_cons_app_inv in P.
    + exists (v :: vs). rewrite Er. split; [reflexivity|].
      split; [simpl; now rewrite El|].
      simpl. simpl in Pv. rewrite E2 in Pv. rewrite E1.
      apply Permutation_cons_app. exact Pv.
Qed.

Lemma add_fresh_keys a k v t :
  bst (root_ t) -> ~ In k (keys (root_ t)) ->
  Permutation (keys (root_ (snd (add (fresh a) k v t)))) (k :: keys (root_ t)).
Proof.
  intros B Hni.
  destruct (addHelper_leaf_bst _ a _ v B Hni) as (t' & E & _ & _ & P).
  rewrite (add_success _ _ _ _ _ E). simpl. unfold keys.
  now apply (Permutation_map fst) in P.
Qed.

Lemma add_absent_ok a k v t :
  ~ In k (keys (root_ t)) -> (0 <= size_ t < UINT_MAX)%Z ->
  fst (add (fresh a) k v t) = true /\
  at_ k (snd (add (fresh a) k v t)) = ret v /\
  size_ (snd (add (fresh a) k v t)) = (size_ t + 1)%Z.
Proof.
  intros Hni Hu.
  destruct (addHelper_absent (root_ t) (mkNode a (k, v) nullptr nullptr) Hni)
    as (t' & l1 & l2 & E & _).
  pose proof (atHelper_addHelper _ _ _ E) as Hat. simpl in Hat.
  rewrite (add_success _ _ _ _ _ E). unfold at_. simpl.
  split; [reflexivity|]. split; [exact Hat|]. now apply uint_succ.
Qed.

(** Adding entries with pairwise distinct keys, none of them in the map, to
    a map satisfying the invariant that has room for them: every [add]
    succeeds, so the invariant holds afterwards, [size()] has grown by
    their number, [at] of every added key returns the value added with it,
    and [at] of any other key gives what it gave before. *)
Theorem add_all_bulk kvs t :
  Inv t ->
  NoDup (map (fun x => fst (snd x)) kvs ++ keys (root_ t)) ->
  (size_ t + Z.of_nat (length kvs) <= UINT_MAX)%Z ->
  Inv (add_all kvs t) /\
  size (add_all kvs t) = (size t + Z.of_nat (length kvs))%Z /\
  (forall a k v, In (a, (k, v)) kvs -> at_ k (add_all kvs t) = ret v) /\
  (forall k, ~ In k (map (fun x => fst (snd x)) kvs) ->
             at_ k (add_all kvs t) = at_ k t).
Proof.
  revert t. induction kvs as [|[a [k v]] kvs IH]; intros t I ND Hsz.
  - simpl. split; [exact I|]. split; [unfold size; lia|].
    split; [intros a k v [] | reflexivity].
  - rewrite add_all_cons. simpl map in *. simpl app in *.
    apply NoDup_cons_iff in ND as [Hni ND].
    assert (Hk : ~ In k (keys (root_ t))).
    { intros H. apply Hni. apply in_or_app. now right. }
    assert (Hkr : ~ In k (map (fun x => fst (snd x)) kvs)).
    { intros H. apply Hni. apply in_or_app. now left. }
    pose proof I as [Hc Hu B _].
    simpl length in Hsz. rewrite Nat2Z.inj_succ in Hsz.
    destruct (add_absent_ok a k v t Hk) as (Hok & Hat & Hs1); [lia|].
    pose proof (add_fresh_keys a k v t B Hk) as Pk.
    set (t1 := snd (add (fresh a) k v t)) in *.
    assert (I1 : Inv t1) by (apply add_Inv; [exact I | left; lia]).
    destruct (IH t1 I1) as (I2 & Hs2 & Hin & Hout).
    + apply (Permutation_NoDup
               (l := k :: map (fun x => fst (snd x)) kvs ++ keys (root_ t))).
      * eapply Permutation_trans; [apply Permutation_middle|].
        apply Permutation_app_head. symmetry. exact Pk.
      * now constructor.
    + lia.
    + split; [exact I2|]. split.
      { unfold size in *. simpl length. rewrite Nat2Z.inj_succ. lia. }
      split.
      * intros a' k' v' [H|H].
        -- injection H as <- <- <-. now rewrite (Hout k Hkr).
        -- now apply (Hin a').
      * intros k' Hk'. simpl in Hk'. rewrite Hout by tauto.
        apply at_add_other. intros ->. tauto.
Qed.

Lemma addHelper_chain t a k v :
  right_chain t ->
  Forall (fun x => less x k = true) (keys t) ->
  exists t',
    addHelper t (mkNode a (k, v) nullptr nullptr) = (t', true) /\
    right_chain t' /\
    height t' = S (height t) /\
    inorder t' = inorder t ++ [(k, v)].
Proof.
  induction t as [|a' p r IHr l IHl]; intros RC HF.
  - exists (ptr_to (mkNode a (k, v) nullptr nullptr)).
    repeat split.
  - destruct RC as [-> RC]. rewrite keys_Node in HF. simpl in HF.
    apply Forall_cons_iff in HF as [Hp Fr].
    destruct (IHr RC Fr) as (r' & E & RC' & Hh & Ei).
    exists (Node a' p r' nullptr). simpl. rewrite Hp, E.
    repeat split; try assumption.
    + now rewrite Hh.
    + now rewrite Ei.
Qed.

Lemma add_all_chain kvs t :
  right_chain (root_ t) ->
  ascending (keys (root_ t) ++ map (fun x => fst (snd x)) kvs) ->
  right_chain (root_ (add_all kvs t)) /\
  height (root_ (add_all kvs t)) = height (root_ t) + length kvs /\
  inorder (root_ (add_all kvs t)) = inorder (root_ t) ++ map snd kvs.
Proof.
  revert t. induction kvs as [|[a [k v]] kvs IH]; intros t RC S.
  - simpl. rewrite app_nil_r. repeat split; [assumption | lia].
  - rewrite add_all_cons. simpl map in *.
    assert (HF : Forall (fun x => less x k = true) (keys (root_ t))).
    { apply ascending_app in S as (_ & _ & C).
      rewrite Forall_forall. intros x Hx. apply C; [exact Hx | now left]. }
    destruct (addHelper_chain (root_ t) a k v RC HF)
      as (t' & E & RC' & Hh & Ei).
    rewrite (add_success _ _ _ _ _ E). cbn [snd].
    set (t1 := {| size_ := uint (size_ t + 1); root_ := t' |}).
    destruct (IH t1) as (RC2 & Hh2 & Ei2).
    + exact RC'.
    + simpl. unfold keys. rewrite Ei, map_app. simpl.
      rewrite <- app_assoc. exact S.
    + simpl in *. split; [exact RC2|]. split.
      * rewrite Hh2, Hh. lia.
      * rewrite Ei2, Ei, <- app_assoc. reflexivity.
Qed.

(** No rebalancing takes place: adding entries in strictly ascending key
    order to an empty map yields a tree without any left child, whose
    height is the number of entries. *)
Theorem ascending_insertion_chain kvs :
  ascending (map (fun x => fst (snd x)) kvs) ->
  right_chain (root_ (add_all kvs TreeMap_new)) /\
  height (root_ (add_all kvs TreeMap_new)) = length kvs /\
  inorder (root_ (add_all kvs TreeMap_new)) = map snd kvs.
Proof.
  intros S. apply (add_all_chain kvs TreeMap_new); [exact I | exact S].
Qed.

(** *** Assignment through the reference returned by [at] *)

(** [t.at(key) = value;]: [atHelper] returns a reference to the [second]
    component of the payload of the node it finds, and the caller assigns
    through it. *)
Fixpoint atHelper_store (current : ptr) (key : K) (value : V) : result ptr :=
  match current with
  | nullptr => throw KeyNotFound
  | Node a p r l =>
      if less (fst p) key then
        r' <- atHelper_store r key value ;; ret (Node a p r' l)
      else if greater (fst p) key then
        l' <- atHelper_store l key value ;; ret (Node a p r l')
      else
        ret (Node a (fst p, value) r l)
  end.

Definition at_store (key : K) (value : V) (t : TreeMap)
  : result unit * TreeMap :=
  match atHelper_store (root_ t) key value with
  | throw e => (throw e, t)
  | ret root' => (ret tt, {| size_ := size_ t; root_ := root' |})
  end.

Lemma atHelper_store_throw t k v :
  (forall e, atHelper t k = throw e ->
             atHelper_store t k v = throw KeyNotFound) /\
  (forall v0, atHelper t k = ret v0 ->
     exists t', atHelper_store t k v = ret t' /\
                atHelper t' k = ret v /\
                atHelper_store t' k v0 = ret t /\
                map fst (cells t') = map fst (cells t) /\
                keys t' = keys t).
Proof.
  induction t as [|a p r [IHr1 IHr2] l [IHl1 IHl2]]; simpl.
  - split; [reflexivity | discriminate].
  - unfold keys in *. simpl.
    destruct (less (fst p) k) eqn:E1; [|destruct (greater (fst p) k) eqn:E2].
    + split.
      * intros e H. now rewrite (IHr1 e H).
      * intros v0 H. destruct (IHr2 v0 H) as (r' & -> & A & S & C & Ks).
        exists (Node a p r' l). simpl. rewrite E1, A, S. simpl.
        rewrite !map_app. simpl. now rewrite C, Ks.
    + split.
      * intros e H. now rewrite (IHl1 e H).
      * intros v0 H. destruct (IHl2 v0 H) as (l' & -> & A & S & C & Ks).
        exists (Node a p r l'). simpl. rewrite E1, E2, A, S. simpl.
        rewrite !map_app. simpl. now rewrite C, Ks.
    + split; [discriminate|].
      intros v0 H. injection H as <-.
      exists (Node a (fst p, v) r l). simpl. rewrite E1, E2.
      rewrite !map_app. simpl. repeat split. now destruct p.
Qed.

Lemma atHelper_store_other t k v t' k' :
  atHelper_store t k v = ret t' -> k' <> k ->
  atHelper t' k' = atHelper t k'.
Proof.
  intros H Hne. revert t' H.
  induction t as [|a p r IHr l IHl]; simpl; intros t' H; [discriminate|].
  destruct (cmpP (fst p) k) as [_ _|_ _|E].
  - destruct (atHelper_store r k v) as [r'|e]; [|discriminate].
    injection H as <-. simpl. now rewrite (IHr r' eq_refl).
  - destruct (atHelper_store l k v) as [l'|e]; [|discriminate].
    injection H as <-. simpl. now rewrite (IHl l' eq_refl).
  - injection H as <-. simpl.
    destruct (cmpP (fst p) k') as [_ _|_ _|E']; try reflexivity.
    elim Hne. now rewrite <- E, <- E'.
Qed.

(** Assigning through [at(k)]: if [at(k)] throws, so does the statement, and
    the map is untouched.  Otherwise [at(k)] returns the assigned value
    afterwards, [at] of every other key, [size()], the keys and the node
    addresses are as before, the invariant is kept, and assigning the old
    value back restores the map exactly. *)
Theorem at_store_spec k v t :
  (forall e, at_ k t = throw e -> at_store k v t = (throw KeyNotFound, t)) /\
  (forall v0, at_ k t = ret v0 ->
     fst (at_store k v t) = ret tt /\
     at_ k (snd (at_store k v t)) = ret v /\
     (forall k', k' <> k ->
        at_ k' (snd (at_store k v t)) = at_ k' t) /\
     size (snd (at_store k v t)) = size t /\
     map fst (cells (root_ (snd (at_store k v t))))
     = map fst (cells (root_ t)) /\
     (Inv t -> Inv (snd (at_store k v t))) /\
     at_store k v0 (snd (at_store k v t)) = (ret tt, t)).
Proof.
  unfold at_, at_store.
  destruct (atHelper_store_throw (root_ t) k v) as [H1 H2]. split.
  - intros e H. now rewrite (H1 e H).
  - intros v0 H. destruct (H2 v0 H) as (t' & E & A & S & C & Ks).
    rewrite E. simpl. rewrite S. simpl.
    split; [reflexivity|]. split; [exact A|]. split.
    { intros k' Hne. exact (atHelper_store_other _ _ _ _ _ E Hne). }
    split; [reflexivity|]. split; [exact C|]. split.
    + intros [Hc Hu B ND]. constructor; simpl.
      * rewrite Hc. f_equal.
        rewrite !count_inorder, !inorder_cells, !length_map.
        apply (f_equal (@length _)) in C. now rewrite !length_map in C.
      * exact Hu.
      * apply bst_ascending. rewrite Ks. now apply bst_ascending.
      * now rewrite Ks.
    + now rewrite TreeMap_eta.
Qed.

(** *** The destructor *)

(** [deleteTreeHelper]: the addresses handed to [delete], in the order of
    the calls. *)
Fixpoint deleteTreeHelper (current : ptr) : list addr :=
  match current with
  | nullptr => []
  | Node a _ r l => deleteTreeHelper l ++ deleteTreeHelper r ++ [a]
  end.

(** [~TreeMap()] *)
Definition TreeMap_delete (t : TreeMap) : list addr :=
  deleteTreeHelper (root_ t).

(** The destructor deletes every node of the tree, and no node twice when
    the nodes have pairwise distinct addresses. *)
Theorem destructor_frees_each_node_once t :
  Permutation (TreeMap_delete t) (map fst (cells (root_ t))) /\
  length (TreeMap_delete t) = count (root_ t) /\
  (NoDup (map fst (cells (root_ t))) -> NoDup (TreeMap_delete t)).
Proof.
  assert (P : forall r, Permutation (deleteTreeHelper r) (map fst (cells r))).
  { induction r as [|a p r IHr l IHl]; simpl; [constructor|].
    rewrite map_app. simpl.
    apply Permutation_app; [exact IHl|].
    eapply Permutation_trans; [apply Permutation_app_comm|].
    simpl. now constructor. }
  unfold TreeMap_delete. split; [apply P|]. split.
  - rewrite (Permutation_length (P (root_ t))), length_map.
    now rewrite count_inorder, inorder_cells, length_map.
  - intros ND. apply (Permutation_NoDup (Permutation_sym (P (root_ t))) ND).
Qed.

(** *** Writing a map to a stream *)

Section Formatter.

(** What [os << key] and [os << value] write. *)
Variable showK : K -> string.
Variable showV : V -> string.

(** [os << "{" << it->first << "=" << it->second << close], the operands
    evaluated from left to right: the outcome and the text in the stream
    afterwards. *)
Definition put_entry (os : string) (it : TreeIterator) (close : string)
  : result unit * string :=
  let os := (os ++ "{")%string in
  match arrow it with
  | throw e => (throw e, os)
  | ret p1 =>
      let os := (os ++ showK (fst p1))%string in
      let os := (os ++ "=")%string in
      match arrow it with
      | throw e => (throw e, os)
      | ret p2 =>
          let os := (os ++ showV (snd p2))%string in
          (ret tt, (os ++ close)%string)
      end
  end.

(** [for (unsigned int i = 0; i < tm.size() - 1; i++) { ...; ++it; }] with
    [n] iterations to go. *)
Fixpoint put_loop (n : nat) (os : string) (it : TreeIterator)
  : result unit * (string * TreeIterator) :=
  match n with
  | O => (ret tt, (os, it))
  | S n' =>
      match put_entry os it "}, " with
      | (throw e, os') => (throw e, (os', it))
      | (ret _, os') =>
          match incr it with
          | (throw e, it') => (throw e, (os', it'))
          | (ret _, it') => put_loop n' os' it'
          end
      end
  end.

(** [operator<<(ostream&, const TreeMap&)] *)
Definition print (os : string) (tm : TreeMap) : result unit * string :=
  let it := begin_ tm in
  if (0 <? size tm)%Z then
    match put_loop (Z.to_nat (uint (size tm - 1))) os it with
    | (throw e, (os', _)) => (throw e, os')
    | (ret _, (os', it')) => put_entry os' it' "}"
    end
  else (ret tt, os).

Definition show_entry (p : K * V) : string :=
  ("{" ++ showK (fst p) ++ "=" ++ showV (snd p) ++ "}")%string.

Lemma string_app_assoc (a b c : string) :
  ((a ++ b) ++ c = a ++ b ++ c)%string.
Proof. induction a as [|x a IH]; simpl; [reflexivity | now rewrite IH]. Qed.

Lemma put_entry_top os n rest close :
  put_entry os (n :: rest) close
  = (ret tt,
     (os ++ "{" ++ showK (fst (payload n)) ++ "="
         ++ showV (snd (payload n)) ++ close)%string).
Proof.
  unfold put_entry, arrow. simpl. now rewrite !string_app_assoc.
Qed.

Lemma print_from l :
  forall it os,
    remaining it = l -> l <> [] ->
    match put_loop (length l - 1) os it with
    | (throw e, (os', _)) => (throw e, os')
    | (ret _, (os', it')) => put_entry os' it' "}"
    end
    = (ret tt, (os ++ String.concat ", " (map show_entry l))%string).
Proof.
  induction l as [|x l IH]; intros it os Hr Hne; [now elim Hne|].
  destruct it as [|n rest]; [discriminate|].
  assert (Hx : payload n = x) by (simpl in Hr; now injection Hr).
  assert (Hl : remaining (push_left_chain (right n) rest) = l).
  { rewrite remaining_push_left_chain. simpl in Hr. now injection Hr. }
  destruct l as [|y l].
  - simpl. rewrite put_entry_top, Hx. reflexivity.
  - replace (length (x :: y :: l) - 1) with (S (length (y :: l) - 1))
      by (simpl; lia).
    cbn [put_loop]. rewrite put_entry_top, incr_remaining, Hx.
    rewrite (IH _ _ Hl) by discriminate.
    cbn [map].
    change (String.concat ", " (show_entry x :: show_entry y
                                :: map show_entry l))
      with (show_entry x ++ ", "
            ++ String.concat ", " (show_entry y :: map show_entry l))%string.
    generalize (String.concat ", " (show_entry y :: map show_entry l)).
    intros s. unfold show_entry. rewrite !string_app_assoc. reflexivity.
Qed.

(** Writing a map that satisfies the invariant to a stream never throws and
    appends the entries in ascending key order, each as [{key=value}],
    separated by a comma and a space; for an empty map nothing is
    written. *)
Theorem print_listing os tm :
  Inv tm ->
  print os tm
  = (ret tt,
     (os ++ String.concat ", " (map show_entry (inorder (root_ tm))))%string).
Proof.
  intros [Hc Hu B ND]. unfold print, size.
  assert (Hr : remaining (begin_ tm) = inorder (root_ tm)).
  { unfold begin_, TreeIterator_of. rewrite remaining_push_left_chain.
    simpl. apply app_nil_r. }
  destruct (0 <? size_ tm)%Z eqn:E.
  - apply Z.ltb_lt in E.
    rewrite uint_pred by lia.
    replace (Z.to_nat (size_ tm - 1))
      with (length (inorder (root_ tm)) - 1)
      by (rewrite <- count_inorder; lia).
    apply print_from; [exact Hr|].
    intros H. rewrite count_inorder, H in Hc. simpl in Hc. lia.
  - apply Z.ltb_ge in E.
    assert (H : inorder (root_ tm) = []).
    { apply length_zero_iff_nil. rewrite <- count_inorder. lia. }
    rewrite H. simpl.
    clear. induction os as [|c os IH]; simpl; [reflexivity|].
    injection IH as IH. now rewrite <- IH.
Qed.

End Formatter.

(** *** The size of an iterator's stack *)

(** Every stacked node, together with the nodes stacked below it, fits
    into [h] levels. *)
Fixpoint fits (it : TreeIterator) (h : nat) : Prop :=
  match it with
  | [] => True
  | n :: rest => height (ptr_to n) + length rest <= h /\ fits rest h
  end.

Lemma fits_push_left_chain root st h :
  height root + length st <= h -> fits st h ->
  fits (push_left_chain root st) h.
Proof.
  revert st. induction root as [|a p r IHr l IHl]; intros st Hh F; simpl.
  - exact F.
  - apply IHl.
    + simpl in *. lia.
    + simpl. split; [|exact F]. unfold ptr_to. simpl in *. lia.
Qed.

Lemma fits_advance n it it' h :
  fits it h -> advance n it = ret it' -> fits it' h.
Proof.
  revert it. induction n as [|n IH]; intros it F H; simpl in H.
  - now injection H as <-.
  - destruct it as [|x rest]; [discriminate|].
    rewrite incr_remaining in H. apply IH in H; [exact H|].
    destruct F as [Hx F]. apply fits_push_left_chain; [|exact F].
    unfold ptr_to in Hx. simpl in Hx. lia.
Qed.

(** The iterator is lazy: however far it has been advanced from [begin()],
    its stack holds at most as many node pointers as the tree is high. *)
Theorem iterator_stack_bound t n it :
  advance n (begin_ t) = ret it -> length it <= height (root_ t).
Proof.
  intros H.
  assert (F : fits it (height (root_ t))).
  { apply (fits_advance n (begin_ t)); [|exact H].
    unfold begin_, TreeIterator_of.
    apply fits_push_left_chain; simpl; [lia | exact I]. }
  destruct it as [|x rest]; simpl; [lia|].
  destruct F as [Hx _]. unfold ptr_to in Hx. simpl in Hx. lia.
Qed.

End TreeMap.

Arguments nullptr {K V}.
Arguments TreeMap_new {K V}.
Arguments count {K V} t.
Arguments pending {K V} it.
Arguments traverse {K V} it.
Arguments inorder {K V} t.
Arguments keys {K V} t.
Arguments bst {K V} less greater t.
Arguments ascending {K} less ks.
Arguments Inv {K V} less greater t.
Arguments GoRight {K V} a p l.
Arguments GoLeft {K V} a p r.
Arguments plug {K V} C t.
Arguments spliced {K V} less greater r l.
Arguments add_all {K V} less greater kvs t.
Arguments remaining {K V} it.
Arguments advance {K V} n it.
Arguments add_new_key_claim {K V} less greater new_ key value t.
Arguments add_preserves_Inv_claim {K V} less greater new_ key value t.
Arguments cells {K V} t.
Arguments remaining_cells {K V} it.
Arguments remove_all {K V} less greater ks t.
Arguments height {K V} t.
Arguments right_chain {K V} t.
Arguments atHelper_store {K V} less greater current key value.
Arguments at_store {K V} less greater key value t.
Arguments deleteTreeHelper {K V} current.
Arguments TreeMap_delete {K V} t.
Arguments put_entry {K V} showK showV os it close.
Arguments put_loop {K V} showK showV n os it.
Arguments print {K V} showK showV os tm.
Arguments show_entry {K V} showK showV p.
Arguments fits {K V} it h.

(** ** Integer keys

    [TreeMap<int, char>] as the test suite instantiates it; a [char] value is
    written as its code. *)

Module IntMap.

Local Open Scope Z_scope.

Definition less : Z -> Z -> bool := Z.ltb.
Definition greater : Z -> Z -> bool := Z.gtb.

Notation add := (add (V := Z) less greater).
Notation remove := (remove (V := Z) less greater).
Notation at_ := (at_ (V := Z) less greater).
Notation add_all := (add_all (V := Z) less greater).
Notation Inv := (Inv (V := Z) less greater).
Notation bst := (bst (V := Z) less greater).

(** [add(5,'a'); add(3,'b'); add(8,'c')] on an empty map, the nodes being
    allocated at addresses 1, 2 and 3. *)
Definition sample : TreeMap Z Z :=
  add_all
    [(1%positive, (5, 97)); (2%positive, (3, 98)); (3%positive, (8, 99))]
    TreeMap_new.

(** The map obtained from the empty one by adding the keys 0, 1, ..., n-1 in
    this order, all with value 0; the node of key [i] is allocated at
    address [i+1]. *)
Definition fill (n : N) : TreeMap Z Z :=
  N.peano_rect (fun _ => TreeMap Z Z) TreeMap_new
    (fun i t => snd (add (fresh (N.succ_pos i)) (Z.of_N i) 0 t)) n.

(** [sample] before its last insertion. *)
Definition sample2 : TreeMap Z Z :=
  add_all [(1%positive, (5, 97)); (2%positive, (3, 98))] TreeMap_new.

Lemma Z_greater_less a b : greater a b = less b a.
Proof. apply Z.gtb_ltb. Qed.

Lemma Z_less_irrefl a : less a a = false.
Proof. apply Z.ltb_irrefl. Qed.

Lemma Z_less_trans a b c :
  less a b = true -> less b c = true -> less a c = true.
Proof. unfold less. rewrite !Z.ltb_lt. lia. Qed.

Lemma Z_less_total a b : less a b = false -> less b a = false -> a = b.
Proof. unfold less. rewrite !Z.ltb_ge. lia. Qed.

(** The concrete scenario of the specification. *)
Example scenario_5_3_8 :
  traverse (begin_ sample) = ret [(3, 98); (5, 97); (8, 99)] /\
  size sample = 3 /\
  fst (remove 5 sample) = ret 97 /\
  size (snd (remove 5 sample)) = 2 /\
  at_ 3 (snd (remove 5 sample)) = ret 98 /\
  at_ 8 (snd (remove 5 sample)) = ret 99 /\
  at_ 5 (snd (remove 5 sample)) = throw KeyNotFound.
Proof. repeat split; reflexivity. Qed.

(** The removal cases exercised by the test suite: the removed node has two
    children, a left child only, a right child only, or none. *)
Example remove_node_all_cases :
  let t3 := add_all
              [(1%positive, (0, 97)); (2%positive, (-1, 98));
               (3%positive, (1, 99))] TreeMap_new in
  let t2l := add_all
               [(1%positive, (0, 97)); (2%positive, (-1, 98))] TreeMap_new in
  let t2r := add_all
               [(1%positive, (0, 97)); (3%positive, (1, 99))] TreeMap_new in
  let t1 := add_all [(1%positive, (0, 97))] TreeMap_new in
  root_ (snd (remove 0 t3))
    = Node 2%positive (-1, 98) (Node 3%positive (1, 99) nullptr nullptr)
           nullptr /\
  root_ (snd (remove 0 t2l)) = Node 2%positive (-1, 98) nullptr nullptr /\
  root_ (snd (remove 0 t2r)) = Node 3%positive (1, 99) nullptr nullptr /\
  snd (remove 0 t1) = TreeMap_new.
Proof. repeat split; reflexivity. Qed.

(** The iterator checks of the test suite on the keys 1, 2, 3. *)
Example iterator_tests :
  let t := add_all
             [(1%positive, (1, 97)); (2%positive, (2, 98));
              (3%positive, (3, 99))] TreeMap_new in
  exists it1 it2 it3,
    advance 2 (begin_ t) = ret it1 /\
    advance 1 (begin_ t) = ret it2 /\
    advance 3 (begin_ t) = ret it3 /\
    deref it1 = ret (3, 99) /\
    iter_neq it1 (begin_ t) = true /\
    iter_neq it1 it2 = true /\
    iter_eq it3 (end_ t) = true /\
    iter_neq it1 (end_ t) = true /\
    fst (incr it3) = throw IteratorExhausted.
Proof. do 3 eexists. repeat split; reflexivity. Qed.

(** *** The map filled up to the range of its counter *)

Lemma fill_succ n :
  fill (N.succ n)
  = snd (add (fresh (N.succ_pos n)) (Z.of_N n) 0 (fill n)).
Proof. unfold fill. now rewrite N.peano_rect_succ. Qed.

Lemma fill_spec n :
  Z.of_N n <= UINT_MAX ->
  size_ (fill n) = Z.of_N n /\
  Z.of_nat (count (root_ (fill n))) = Z.of_N n /\
  bst (root_ (fill n)) /\
  Forall (fun k => 0 <= k < Z.of_N n) (keys (root_ (fill n))).
Proof.
  induction n as [|n IH] using N.peano_ind; intros Hn.
  - repeat split; constructor.
  - destruct IH as (Hs & Hc & B & F); [lia|].
    assert (Hni : ~ In (Z.of_N n) (keys (root_ (fill n)))).
    { rewrite Forall_forall in F. intros H. apply F in H. lia. }
    destruct (addHelper_leaf_bst Z Z less greater Z_greater_less
                Z_less_irrefl Z_less_trans Z_less_total
                (root_ (fill n)) (N.succ_pos n) (Z.of_N n) 0 B Hni)
      as (t' & E & B' & Ec & P).
    rewrite fill_succ.
    rewrite (add_success Z Z less greater _ _ _ _ _ E). simpl.
    split; [rewrite Hs, uint_succ; lia|].
    split; [rewrite Ec; lia|].
    split; [exact B'|].
    apply (Permutation_map fst) in P. symmetry in P.
    apply (Permutation_Forall P). simpl. constructor; [lia|].
    eapply Forall_impl; [|exact F]. simpl. intros k Hk. lia.
Qed.

Lemma fill_Inv n : Z.of_N n <= UINT_MAX -> Inv (fill n).
Proof.
  intros Hn. destruct (fill_spec n Hn) as (Hs & Hc & B & F).
  constructor.
  - lia.
  - lia.
  - exact B.
  - exact (bst_NoDup Z Z less greater Z_greater_less Z_less_irrefl
             Z_less_trans Z_less_total _ B).
Qed.

(** A successful [add] on a map whose counter is [UINT_MAX] sets the counter
    to 0. *)
Lemma add_on_full a k v t :
  bst (root_ t) -> size_ t = UINT_MAX -> ~ In k (keys (root_ t)) ->
  fst (add (fresh a) k v t) = true /\
  size_ (snd (add (fresh a) k v t)) = 0 /\
  count (root_ (snd (add (fresh a) k v t))) = S (count (root_ t)).
Proof.
  intros B Hs Hni.
  destruct (addHelper_leaf_bst Z Z less greater Z_greater_less
              Z_less_irrefl Z_less_trans Z_less_total
              (root_ t) a k v B Hni) as (t' & E & _ & Ec & _).
  rewrite (add_success Z Z less greater _ _ _ _ _ E). simpl. rewrite Hs.
  repeat split. exact Ec.
Qed.

Lemma fill_full :
  Inv (fill 4294967295) /\
  size_ (fill 4294967295) = UINT_MAX /\
  ~ In 4294967295 (keys (root_ (fill 4294967295))).
Proof.
  assert (Hn : Z.of_N 4294967295 <= UINT_MAX) by (unfold UINT_MAX; lia).
  pose proof (fill_Inv _ Hn) as I.
  destruct (fill_spec _ Hn) as (Hs & _ & _ & F).
  split; [exact I|]. split; [exact Hs|].
  rewrite Forall_forall in F. intros H. apply F in H. lia.
Qed.

(** *** Where the literal readings fail *)

(** On a map whose counter is [UINT_MAX], the literal reading of the first
    testable property fails for every absent key. *)
Lemma full_refutes_add_new_key a k v t :
  Inv t -> size_ t = UINT_MAX -> ~ In k (keys (root_ t)) ->
  ~ add_new_key_claim less greater (fresh a) k v t.
Proof.
  intros I Hs Hni H.
  destruct (H Hni) as (_ & _ & Hsz).
  destruct (add_on_full a k v t (inv_bst _ _ _ _ _ I) Hs Hni) as (_ & H0 & _).
  unfold size in Hsz. rewrite H0, Hs in Hsz. discriminate.
Qed.

(** On such a map a successful [add] breaks the count clause of the
    invariant. *)
Lemma full_refutes_add_preserves_Inv a k v t :
  Inv t -> size_ t = UINT_MAX -> ~ In k (keys (root_ t)) ->
  ~ add_preserves_Inv_claim less greater (fresh a) k v t.
Proof.
  intros I Hs Hni H. specialize (H I).
  destruct (add_on_full a k v t (inv_bst _ _ _ _ _ I) Hs Hni) as (_ & H0 & Hc).
  destruct H as [Hcount _ _ _].
  rewrite H0, Hc in Hcount. lia.
Qed.

(** C1, as stated, fails: when the allocation of the node throws, [add] of
    an absent key returns false; and on the map holding [UINT_MAX] entries,
    which satisfies the invariant, a successful [add] of an absent key takes
    [size()] from [UINT_MAX] to 0 instead of increasing it by one. *)
Lemma add_new_key_fails :
  ~ add_new_key_claim less greater bad_alloc 5 97 TreeMap_new /\
  (Inv (fill 4294967295) /\
   ~ add_new_key_claim less greater (fresh 4294967296%positive)
       4294967295 0 (fill 4294967295)).
Proof.
  split.
  - intros H. destruct H as [H _]; [simpl; tauto | discriminate H].
  - split; [exact (proj1 fill_full)|].
    exact (full_refutes_add_new_key _ _ _ _ (proj1 fill_full)
             (proj1 (proj2 fill_full)) (proj2 (proj2 fill_full))).
Qed.

(** C6, as stated, fails: the map holding [UINT_MAX] entries satisfies the
    invariant, and after a successful [add] its stored count is 0 while it
    has [UINT_MAX + 1] nodes. *)
Lemma add_breaks_count :
  Inv (fill 4294967295) /\
  ~ add_preserves_Inv_claim less greater (fresh 4294967296%positive)
      4294967295 0 (fill 4294967295).
Proof.
  split; [exact (proj1 fill_full)|].
  exact (full_refutes_add_preserves_Inv _ _ _ _ (proj1 fill_full)
           (proj1 (proj2 fill_full)) (proj2 (proj2 fill_full))).
Qed.

(** *** The theorems at work on the sample maps *)

(** The sample map satisfies the tree invariant. *)
Lemma sample_Inv_holds : Inv sample.
Proof.
  constructor.
  - reflexivity.
  - vm_compute. split; discriminate.
  - simpl. repeat (split || constructor).
  - simpl. repeat constructor; simpl; intuition lia.
Defined.

(** C1 at work: adding the absent key 8 to the map holding 5 and 3. *)
Lemma add_new_key_witness :
  ~ In 8 (keys (root_ sample2)) /\
  0 <= size_ sample2 <= UINT_MAX /\
  fst (add (fresh 3%positive) 8 99 sample2) = true /\
  at_ 8 (snd (add (fresh 3%positive) 8 99 sample2)) = ret 99 /\
  (size_ sample2 < UINT_MAX ->
   size (snd (add (fresh 3%positive) 8 99 sample2)) = size sample2 + 1) /\
  (size_ sample2 = UINT_MAX ->
   size (snd (add (fresh 3%positive) 8 99 sample2)) = 0).
Proof.
  assert (H1 : ~ In 8 (keys (root_ sample2))) by (simpl; intuition lia).
  assert (H2 : 0 <= size_ sample2 <= UINT_MAX)
    by (vm_compute; split; discriminate).
  split; [exact H1|]. split; [exact H2|].
  exact (add_new_key Z Z less greater Z_greater_less Z_less_irrefl
           Z_less_trans Z_less_total 3%positive 8 99 sample2 H1 H2).
Defined.

(** C2 at work: adding the stored key 3 again, with another value. *)
Lemma add_existing_key_witness :
  bst (root_ sample) /\
  In (3, 98) (inorder (root_ sample)) /\
  add (fresh 4%positive) 3 100 sample = (false, sample) /\
  at_ 3 (snd (add (fresh 4%positive) 3 100 sample)) = ret 98 /\
  size (snd (add (fresh 4%positive) 3 100 sample)) = size sample.
Proof.
  assert (H1 : bst (root_ sample)) by (simpl; repeat (split || constructor)).
  assert (H2 : In (3, 98) (inorder (root_ sample))) by (simpl; tauto).
  split; [exact H1|]. split; [exact H2|].
  exact (add_existing_key Z Z less greater Z_greater_less Z_less_irrefl
           Z_less_trans Z_less_total (fresh 4%positive) 3 98 100 sample
           H1 H2).
Defined.

(** C3 at work: removing the root key 5 of the sample map. *)
Lemma remove_present_key_witness :
  Inv sample /\
  In (5, 97) (inorder (root_ sample)) /\
  fst (remove 5 sample) = ret 97 /\
  size (snd (remove 5 sample)) = size sample - 1 /\
  at_ 5 (snd (remove 5 sample)) = throw KeyNotFound.
Proof.
  assert (H2 : In (5, 97) (inorder (root_ sample))) by (simpl; tauto).
  split; [exact sample_Inv_holds|]. split; [exact H2|].
  exact (remove_present_key Z Z less greater Z_greater_less Z_less_irrefl
           Z_less_trans Z_less_total 5 97 sample sample_Inv_holds H2).
Defined.

(** C4 at work: the node of key 5, with both children, sits to the left of
    a root of key 9; its right child 8 ends up below its left child 3. *)
Lemma remove_splices_witness :
  let C := [GoLeft 1%positive (9, 96) nullptr] in
  let r := Node 4%positive (8, 99) nullptr nullptr in
  let l := Node 3%positive (3, 98) nullptr nullptr in
  bst (plug C (Node 2%positive (5, 97) r l)) /\
  removeHelper less greater (plug C (Node 2%positive (5, 97) r l)) 5
  = ret (Node 1%positive (9, 96) nullptr
           (Node 3%positive (3, 98) r nullptr), 97).
Proof.
  intros C r l.
  assert (H1 : bst (plug C (Node 2%positive (5, 97) r l)))
    by (simpl; repeat (split || constructor)).
  split; [exact H1|].
  exact (proj1 (remove_splices Z Z less greater Z_greater_less Z_less_irrefl
                  Z_less_trans Z_less_total C 2%positive (5, 97) r l H1)).
Defined.

(** C5 at work: the key 7 is not in the sample map. *)
Lemma absent_key_fails_witness :
  ~ In 7 (keys (root_ sample)) /\
  at_ 7 sample = throw KeyNotFound /\
  remove 7 sample = (throw KeyNotFound, sample) /\
  size (snd (remove 7 sample)) = size sample /\
  (forall v, add bad_alloc 7 v sample = (false, sample)).
Proof.
  assert (H1 : ~ In 7 (keys (root_ sample))) by (simpl; intuition lia).
  split; [exact H1|].
  exact (absent_key_fails Z Z less greater Z_greater_less Z_less_irrefl
           Z_less_trans Z_less_total 7 sample H1).
Defined.

(** C6 at work: an insertion into and a removal from the sample map. *)
Lemma operations_preserve_Inv_witness :
  Inv sample /\
  Inv (snd (add (fresh 4%positive) 7 100 sample)) /\
  Inv (snd (remove 5 sample)).
Proof.
  pose proof (operations_preserve_Inv Z Z less greater Z_greater_less
                Z_less_irrefl Z_less_trans Z_less_total sample
                sample_Inv_holds) as [Ha Hr].
  split; [exact sample_Inv_holds|]. split.
  - apply Ha. left. vm_compute. reflexivity.
  - apply Hr.
Defined.

(** C7 at work: the sample map, built by inserting 5, 3, 8. *)
Lemma iteration_in_order_witness :
  bst (root_ sample) /\
  NoDup [5; 3; 8] /\
  (exists out,
     traverse (begin_ sample) = ret out /\
     ascending less (map fst out) /\
     NoDup (map fst out) /\
     length out = count (root_ sample) /\
     (forall k v, In (k, v) out <-> at_ k sample = ret v)) /\
  (exists out,
     traverse (begin_ sample) = ret out /\
     Permutation (map fst out) [5; 3; 8] /\
     ascending less (map fst out)).
Proof.
  assert (H1 : bst (root_ sample)) by (simpl; repeat (split || constructor)).
  assert (H2 : NoDup [5; 3; 8]) by (repeat constructor; simpl; intuition lia).
  pose proof (iteration_in_order Z Z less greater Z_greater_less
                Z_less_irrefl Z_less_trans Z_less_total) as [Ht Ha].
  split; [exact H1|]. split; [exact H2|]. split.
  - exact (Ht sample H1).
  - exact (Ha [(1%positive, (5, 97)); (2%positive, (3, 98));
               (3%positive, (8, 99))] H2).
Defined.

(** C10 at work: the freshly constructed map. *)
Lemma begin_of_empty_witness :
  root_ (TreeMap_new (K := Z) (V := Z)) = nullptr /\
  iter_eq (begin_ (TreeMap_new (K := Z) (V := Z)))
          (end_ (TreeMap_new (K := Z) (V := Z))) = true /\
  deref (begin_ (TreeMap_new (K := Z) (V := Z))) = throw IteratorExhausted /\
  fst (incr (begin_ (TreeMap_new (K := Z) (V := Z))))
  = throw IteratorExhausted.
Proof.
  assert (H1 : root_ (TreeMap_new (K := Z) (V := Z)) = nullptr)
    by reflexivity.
  destruct (begin_of_empty Z Z TreeMap_new H1) as (He & _ & Hd & _ & Hi).
  split; [exact H1|]. split; [exact He|]. split; [exact Hd|].
  rewrite Hi. reflexivity.
Defined.

(** *** The further properties at work on the sample maps *)

(** [os << int] and [os << char]. *)
Definition show_int (z : Z) : string := NilZero.string_of_int (Z.to_int z).
Definition show_char (z : Z) : string :=
  String (Ascii.ascii_of_N (Z.to_N z)) EmptyString.

(** The sample map written to an empty stream. *)
Example print_sample :
  print show_int show_char EmptyString sample
  = (ret tt, "{3=b}, {5=a}, {8=c}"%string).
Proof. reflexivity. Qed.

(** Removing the root of the sample map and adding it back changes the
    shape of the tree but not its contents. *)
Example remove_then_add_shape :
  root_ sample
  = Node 1%positive (5, 97) (Node 3%positive (8, 99) nullptr nullptr)
         (Node 2%positive (3, 98) nullptr nullptr) /\
  root_ (snd (add (fresh 4%positive) 5 97 (snd (remove 5 sample))))
  = Node 2%positive (3, 98)
         (Node 3%positive (8, 99) nullptr
               (Node 4%positive (5, 97) nullptr nullptr))
         nullptr.
Proof. split; reflexivity. Qed.

(** Adding the absent key 7 to the sample map and removing it again. *)
Lemma add_then_remove_witness :
  0 <= size_ sample <= UINT_MAX /\
  fst (add (fresh 4%positive) 7 100 sample) = true /\
  remove 7 (snd (add (fresh 4%positive) 7 100 sample)) = (ret 100, sample).
Proof.
  assert (H1 : 0 <= size_ sample <= UINT_MAX)
    by (vm_compute; split; discriminate).
  assert (H2 : fst (add (fresh 4%positive) 7 100 sample) = true)
    by reflexivity.
  split; [exact H1|]. split; [exact H2|].
  exact (add_then_remove Z Z less greater Z_greater_less Z_less_irrefl
           4%positive 7 100 sample H1 H2).
Defined.

(** Adding the key 7 does not disturb the lookup of the key 3. *)
Lemma add_frame_witness :
  3 <> 7 /\
  at_ 3 (snd (add (fresh 4%positive) 7 100 sample)) = at_ 3 sample.
Proof.
  assert (H1 : 3 <> 7) by discriminate.
  split; [exact H1|].
  exact (add_frame Z Z less greater Z_greater_less Z_less_irrefl
           Z_less_trans Z_less_total (fresh 4%positive) 7 100 sample 3 H1).
Defined.

(** Removing the key 5 does not disturb the lookup of the key 8. *)
Lemma remove_frame_witness :
  bst (root_ sample) /\ 8 <> 5 /\
  at_ 8 (snd (remove 5 sample)) = at_ 8 sample.
Proof.
  assert (H1 : bst (root_ sample)) by (simpl; repeat (split || constructor)).
  assert (H2 : 8 <> 5) by discriminate.
  split; [exact H1|]. split; [exact H2|].
  exact (remove_frame Z Z less greater Z_greater_less Z_less_irrefl
           Z_less_trans Z_less_total 5 sample 8 H1 H2).
Defined.

(** Removing the entry of key 5 from the sample map and adding it back. *)
Lemma remove_then_add_witness :
  Inv sample /\ In (5, 97) (inorder (root_ sample)) /\
  fst (add (fresh 4%positive) 5 97 (snd (remove 5 sample))) = true /\
  inorder (root_ (snd (add (fresh 4%positive) 5 97 (snd (remove 5 sample)))))
  = inorder (root_ sample) /\
  size (snd (add (fresh 4%positive) 5 97 (snd (remove 5 sample))))
  = size sample /\
  Inv (snd (add (fresh 4%positive) 5 97 (snd (remove 5 sample)))).
Proof.
  assert (H2 : In (5, 97) (inorder (root_ sample))) by (simpl; tauto).
  split; [exact sample_Inv_holds|]. split; [exact H2|].
  exact (remove_then_add Z Z less greater Z_greater_less Z_less_irrefl
           Z_less_trans Z_less_total 4%positive 5 97 sample
           sample_Inv_holds H2).
Defined.

(** The nodes of the sample map around an insertion and around a removal. *)
Lemma nodes_stay_in_place_witness :
  fst (add (fresh 4%positive) 7 100 sample) = true /\
  bst (root_ sample) /\
  fst (remove 5 sample) = ret 97 /\
  (exists c1 c2,
     cells (root_ sample) = c1 ++ c2 /\
     cells (root_ (snd (add (fresh 4%positive) 7 100 sample)))
     = c1 ++ (4%positive, (7, 100)) :: c2) /\
  (exists c1 a c2,
     cells (root_ sample) = c1 ++ (a, (5, 97)) :: c2 /\
     cells (root_ (snd (remove 5 sample))) = c1 ++ c2).
Proof.
  assert (H1 : fst (add (fresh 4%positive) 7 100 sample) = true)
    by reflexivity.
  assert (H2 : bst (root_ sample)) by (simpl; repeat (split || constructor)).
  assert (H3 : fst (remove 5 sample) = ret 97) by reflexivity.
  destruct (nodes_stay_in_place Z Z less greater Z_greater_less
              Z_less_irrefl Z_less_trans Z_less_total sample) as [Ha Hr].
  split; [exact H1|]. split; [exact H2|]. split; [exact H3|]. split.
  - destruct (Ha 4%positive 7 100 H1) as (c1 & c2 & E1 & E2 & _).
    now exists c1, c2.
  - destruct (Hr 5 97 H2 H3) as (c1 & a & c2 & E1 & E2 & _).
    now exists c1, a, c2.
Defined.

(** One and two increments from the beginning of the sample map. *)
Lemma iterators_apart_witness :
  NoDup (map fst (cells (root_ sample))) /\
  (1 < 2)%nat /\
  (exists it1 it2,
     advance 1 (begin_ sample) = ret it1 /\
     advance 2 (begin_ sample) = ret it2 /\
     iter_eq it1 it2 = false /\ iter_neq it1 it2 = true).
Proof.
  assert (H1 : NoDup (map fst (cells (root_ sample)))).
  { simpl. repeat constructor; simpl; intuition discriminate. }
  assert (H2 : (1 < 2)%nat) by lia.
  split; [exact H1|]. split; [exact H2|].
  eexists. eexists.
  split; [reflexivity|]. split; [reflexivity|].
  exact (iterators_apart Z Z sample 1 2 _ _ H1 H2 eq_refl eq_refl).
Defined.

(** Removing the keys of the sample map in the order 8, 3, 5. *)
Lemma remove_all_empties_witness :
  Inv sample /\ Permutation [8; 3; 5] (keys (root_ sample)) /\
  exists vs,
    remove_all less greater [8; 3; 5] sample = (ret vs, TreeMap_new) /\
    length vs = 3%nat /\
    Permutation (combine [8; 3; 5] vs) (inorder (root_ sample)).
Proof.
  assert (H2 : Permutation [8; 3; 5] (keys (root_ sample))).
  { simpl. apply perm_trans with [3; 8; 5]; [apply perm_swap|].
    apply perm_skip. apply perm_swap. }
  split; [exact sample_Inv_holds|]. split; [exact H2|].
  exact (remove_all_empties Z Z less greater Z_greater_less Z_less_irrefl
           Z_less_trans Z_less_total [8; 3; 5] sample sample_Inv_holds H2).
Defined.

(** Adding the keys 7 and 1 to the sample map. *)
Lemma add_all_bulk_witness :
  Inv sample /\
  NoDup ([7; 1] ++ keys (root_ sample)) /\
  size_ sample + 2 <= UINT_MAX /\
  Inv (add_all [(4%positive, (7, 100)); (5%positive, (1, 101))] sample) /\
  size (add_all [(4%positive, (7, 100)); (5%positive, (1, 101))] sample)
  = size sample + 2 /\
  at_ 1 (add_all [(4%positive, (7, 100)); (5%positive, (1, 101))] sample)
  = ret 101.
Proof.
  assert (H2 : NoDup ([7; 1] ++ keys (root_ sample))).
  { simpl. repeat constructor; simpl; intuition lia. }
  assert (H3 : size_ sample + 2 <= UINT_MAX) by (vm_compute; discriminate).
  destruct (add_all_bulk Z Z less greater Z_greater_less Z_less_irrefl
              Z_less_trans Z_less_total
              [(4%positive, (7, 100)); (5%positive, (1, 101))] sample
              sample_Inv_holds H2 H3) as (I & Hs & Hin & _).
  split; [exact sample_Inv_holds|]. split; [exact H2|]. split; [exact H3|].
  split; [exact I|]. split; [exact Hs|].
  apply (Hin 5%positive). simpl. tauto.
Defined.

(** Inserting 1, 2, 3 in this order. *)
Lemma ascending_insertion_chain_witness :
  ascending less [1; 2; 3] /\
  height (root_ (add_all [(1%positive, (1, 97)); (2%positive, (2, 98));
                          (3%positive, (3, 99))] TreeMap_new)) = 3%nat /\
  right_chain (root_ (add_all [(1%positive, (1, 97)); (2%positive, (2, 98));
                               (3%positive, (3, 99))] TreeMap_new)).
Proof.
  assert (H1 : ascending less [1; 2; 3])
    by (repeat constructor).
  destruct (ascending_insertion_chain Z Z less greater
              Z_less_irrefl Z_less_total
              [(1%positive, (1, 97)); (2%positive, (2, 98));
               (3%positive, (3, 99))] H1) as (RC & Hh & _).
  split; [exact H1|]. split; [exact Hh | exact RC].
Defined.

(** Negating the value stored under 3 and restoring it, as the test suite
    does. *)
Lemma at_store_spec_witness :
  at_ 3 sample = ret 98 /\
  at_ 3 (snd (at_store less greater 3 (-98) sample)) = ret (-98) /\
  at_ 8 (snd (at_store less greater 3 (-98) sample)) = at_ 8 sample /\
  at_store less greater 3 98 (snd (at_store less greater 3 (-98) sample))
  = (ret tt, sample).
Proof.
  assert (H1 : at_ 3 sample = ret 98) by reflexivity.
  destruct (at_store_spec Z Z less greater Z_greater_less Z_less_irrefl
              Z_less_trans Z_less_total 3 (-98) sample) as [_ H].
  destruct (H 98 H1) as (_ & Ha & Ho & _ & _ & _ & Hb).
  split; [exact H1|]. split; [exact Ha|]. split; [|exact Hb].
  apply Ho. discriminate.
Defined.

(** The sample map written after a prefix. *)
Lemma print_listing_witness :
  Inv sample /\
  print show_int show_char "map: " sample
  = (ret tt, "map: {3=b}, {5=a}, {8=c}"%string).
Proof.
  split; [exact sample_Inv_holds|].
  exact (print_listing Z Z less greater show_int show_char "map: " sample
           sample_Inv_holds).
Defined.

(** The stack after one increment over the sample map. *)
Lemma iterator_stack_bound_witness :
  (exists it, advance 1 (begin_ sample) = ret it /\
              (length it <= height (root_ sample))%nat).
Proof.
  eexists. split; [reflexivity|].
  exact (iterator_stack_bound Z Z sample 1 _ eq_refl).
Defined.

End IntMap.
